(** * bundle_lighting: discovery and bundling of lighting-related sources

    A shallow embedding of [scripts/bundle_lighting.py].

    Python [str] values are sequences of Unicode code points, modelled as
    [list N].  Paths are POSIX absolute paths, modelled by the list of their
    components below the anchor ["/"].  The file system is a snapshot: a tree
    of directories, regular files and symbolic links, with the listing order
    of every directory fixed by the order of its entries.  The program is
    given twice: first as it runs when the operating system refuses no
    call, then, in [Raising], with [os.stat] and the write of the output
    file liable to be refused. *)

From Stdlib Require Import String Ascii DecimalString DecimalNat.
From Stdlib Require Import List Bool Arith NArith ZArith Lia.
Import ListNotations.

Set Implicit Arguments.
Set Warnings "-register-all".

(** ** Python strings *)

Definition char := N.
Definition str := list char.

(** [lit s] is the Python string literal written [s] in the source. *)
Definition lit (s : string) : str :=
  map N_of_ascii (list_ascii_of_string s).

Arguments lit s%_string.

Definition char_eqb (a b : char) : bool := N.eqb a b.

Fixpoint str_eqb (a b : str) : bool :=
  match a, b with
  | [], [] => true
  | x :: a', y :: b' => char_eqb x y && str_eqb a' b'
  | _, _ => false
  end.

(** [s.startswith(pre)] *)
Fixpoint startswith (s pre : str) : bool :=
  match pre, s with
  | [], _ => true
  | x :: pre', y :: s' => char_eqb x y && startswith s' pre'
  | _ :: _, [] => false
  end.

(** [sep.join(parts)] *)
Fixpoint join (sep : str) (parts : list str) : str :=
  match parts with
  | [] => []
  | [x] => x
  | x :: rest => x ++ sep ++ join sep rest
  end.

(** [x in xs] for a collection of strings. *)
Definition str_in (x : str) (xs : list str) : bool :=
  existsb (str_eqb x) xs.

(** [str(n)] for a non-negative integer. *)
Definition str_of_nat (n : nat) : str :=
  lit (NilEmpty.string_of_uint (Nat.to_uint n)).

(** [s.rfind(".")]: index of the last dot, if any. *)
Fixpoint rfind_dot (s : str) : option nat :=
  match s with
  | [] => None
  | c :: s' =>
      match rfind_dot s' with
      | Some i => Some (S i)
      | None => if char_eqb c 46%N then Some 0 else None
      end
  end.

(** ** Pure paths *)

Definition path := list str.

Fixpoint path_eqb (p q : path) : bool :=
  match p, q with
  | [], [] => true
  | x :: p', y :: q' => str_eqb x y && path_eqb p' q'
  | _, _ => false
  end.

(** [path.parts]: the anchor followed by the components. *)
Definition parts (p : path) : list str := lit "/" :: p.

(** [str(path)] for an absolute path. *)
Definition str_of_path (p : path) : str := lit "/" ++ join (lit "/") p.

(** [str(path)] for a relative path; the empty relative path prints as a dot. *)
Definition str_of_relpath (p : path) : str :=
  match p with
  | [] => lit "."
  | _ => join (lit "/") p
  end.

(** [path.name]: the final component, or the empty string. *)
Definition name (p : path) : str := last p [].

(** [path.suffix]: the part of the name from its last dot on, provided the dot
    is neither the first nor the last character of the name. *)
Definition suffix (p : path) : str :=
  let nm := name p in
  match rfind_dot nm with
  | Some i => if (0 <? i) && (i <? length nm - 1) then skipn i nm else []
  | None => []
  end.

(** [under base p]: [p] is [base] or lies below it. *)
Definition under (base p : path) : Prop := exists rel, p = base ++ rel.

(** [p.relative_to(base)]: the components of [p] below [base]; raises
    [ValueError] (here [None]) when [base] is not a leading part of [p]. *)
Fixpoint relative_to (p base : path) : option path :=
  match base, p with
  | [], _ => Some p
  | b :: base', c :: p' => if str_eqb b c then relative_to p' base' else None
  | _ :: _, [] => None
  end.

(** ** Configuration *)

Definition SKIP_DIRS : list str :=
  [ lit ".git"; lit "target"; lit "old-codebase"; lit "assets";
    lit "showcase_output"; lit "schematics"; lit "worlds"; lit ".claude" ].

Definition CODE_EXTS : list (str * str) :=
  [ (lit ".rs", lit "rust"); (lit ".toml", lit "toml"); (lit ".ron", lit "ron") ].

(** [key in CODE_EXTS] *)
Definition in_CODE_EXTS (key : str) : bool :=
  existsb (fun kv => str_eqb key (fst kv)) CODE_EXTS.

(** [CODE_EXTS.get(key, default)] *)
Definition CODE_EXTS_get (key default : str) : str :=
  match find (fun kv => str_eqb key (fst kv)) CODE_EXTS with
  | Some kv => snd kv
  | None => default
  end.

Definition is_skipped_dir (p : path) : bool :=
  existsb (fun c => str_in c SKIP_DIRS) (parts p).

Definition language_for (p : path) : str :=
  CODE_EXTS_get (suffix p) [].

(** ** Regular expressions

    The fragment of Python's [re] syntax that [PATTERNS] uses: literals,
    the word-boundary assertion, sequencing and alternation (with the empty
    alternative).  Matching is by backtracking, as in [re]: [rmatch] tries
    the alternatives from left to right and hands each candidate end position
    to its continuation. *)

Inductive regex : Type :=
| Eps : regex
| Lit : str -> regex
| WordB : regex
| Seq : regex -> regex -> regex
| Alt : regex -> regex -> regex.

(** The character before the position reached after reading [l]. *)
Definition prev_after (prev : option char) (l : str) : option char :=
  fold_left (fun _ c => Some c) l prev.

Section Regex.

(** [str.isalnum] on the code points above the ASCII range: Python's Unicode
    database, which is not part of the repository. *)
Variable unicode_alnum : char -> bool.

Definition between (lo hi c : char) : bool := (lo <=? c)%N && (c <=? hi)%N.

(** ["\w"] for a [str] pattern: alphanumeric or underscore. *)
Definition is_word_char (c : char) : bool :=
  if (c <? 128)%N
  then (between 48 57 c || between 65 90 c || between 97 122 c || char_eqb c 95)%N
  else unicode_alnum c.

Definition is_word (c : option char) : bool :=
  match c with
  | Some x => is_word_char x
  | None => false
  end.

(** ["\b"] holds between [prev] and [next] when exactly one side is a word
    character; the two ends of the text count as non-word. *)
Definition word_boundary (prev next : option char) : bool :=
  xorb (is_word prev) (is_word next).

(** Consume the literal [l] at the head of [s], returning the character
    before the new position and the remaining text. *)
Fixpoint eat (l : str) (prev : option char) (s : str) : option (option char * str) :=
  match l with
  | [] => Some (prev, s)
  | x :: l' =>
      match s with
      | y :: s' => if char_eqb x y then eat l' (Some y) s' else None
      | [] => None
      end
  end.

Fixpoint rmatch (r : regex) (prev : option char) (s : str)
         (k : option char -> str -> bool) : bool :=
  match r with
  | Eps => k prev s
  | Lit l =>
      match eat l prev s with
      | Some (prev', s') => k prev' s'
      | None => false
      end
  | WordB => word_boundary prev (hd_error s) && k prev s
  | Seq a b => rmatch a prev s (fun prev' s' => rmatch b prev' s' k)
  | Alt a b => rmatch a prev s k || rmatch b prev s k
  end.

Fixpoint search_from (r : regex) (prev : option char) (s : str) : bool :=
  rmatch r prev s (fun _ _ => true)
  || match s with
     | [] => false
     | c :: s' => search_from r (Some c) s'
     end.

(** [rx.search(text)] as a truth value. *)
Definition search (r : regex) (text : str) : bool := search_from r None text.

(** [matches r prev s prev' s']: starting at a position preceded by [prev]
    with [s] left to read, [r] can consume text up to a position preceded
    by [prev'] with [s'] left to read. *)
Inductive matches : regex -> option char -> str -> option char -> str -> Prop :=
| matches_eps : forall prev s, matches Eps prev s prev s
| matches_lit : forall l prev s, matches (Lit l) prev (l ++ s) (prev_after prev l) s
| matches_wordb : forall prev s,
    word_boundary prev (hd_error s) = true ->
    matches WordB prev s prev s
| matches_seq : forall a b p0 s0 p1 s1 p2 s2,
    matches a p0 s0 p1 s1 -> matches b p1 s1 p2 s2 ->
    matches (Seq a b) p0 s0 p2 s2
| matches_alt_l : forall a b p0 s0 p1 s1,
    matches a p0 s0 p1 s1 -> matches (Alt a b) p0 s0 p1 s1
| matches_alt_r : forall a b p0 s0 p1 s1,
    matches b p0 s0 p1 s1 -> matches (Alt a b) p0 s0 p1 s1.

(** [occurs r text]: [r] matches somewhere in [text]. *)
Definition occurs (r : regex) (text : str) : Prop :=
  exists pre rest prev' s',
    text = pre ++ rest /\ matches r (prev_after None pre) rest prev' s'.

End Regex.

(** [r"\bgeist_lighting\b"], [r"\bLighting(Store|Border|s|)\b"],
    [r"\bLight(Borders|Emitter|ing|)\b"], [r"\bRebuildCause::LightingBorder\b"] *)
Definition PATTERNS : list regex :=
  [ Seq WordB (Seq (Lit (lit "geist_lighting")) WordB);
    Seq WordB (Seq (Lit (lit "Lighting"))
      (Seq (Alt (Lit (lit "Store")) (Alt (Lit (lit "Border")) (Alt (Lit (lit "s")) Eps)))
           WordB));
    Seq WordB (Seq (Lit (lit "Light"))
      (Seq (Alt (Lit (lit "Borders")) (Alt (Lit (lit "Emitter")) (Alt (Lit (lit "ing")) Eps)))
           WordB));
    Seq WordB (Seq (Lit (lit "RebuildCause::LightingBorder")) WordB) ].

Definition COMPILED : list regex := PATTERNS.

(** ** The file system

    A snapshot of the directory tree below ["/"].  A regular file carries the
    outcome of [read_text(encoding="utf-8", errors="ignore")] on it: the
    decoded text, or the exception that reading raises.  The entries of a
    directory are kept in the order in which the operating system lists them.
    Targets of symbolic links are absolute paths.  The tree holds no
    permission bits beyond unreadable files: every directory can be
    listed, and the calls that the operating system refuses for lack of
    permission are those of [Raising] below. *)

Inductive errno : Type :=
| ENOENT | ENOTDIR | EISDIR | ELOOP | EACCES | EIO | EBADF | ENAMETOOLONG.

Inductive exn : Type :=
| OSError (code : errno) (filename : path)
| ValueError (p base : path).

Inductive node : Type :=
| File (content : str + exn)
| Dir (entries : list (str * node))
| Symlink (target : path).

Fixpoint find_entry (nm : str) (es : list (str * node)) : option node :=
  match es with
  | [] => None
  | (k, v) :: es' => if str_eqb k nm then Some v else find_entry nm es'
  end.

(** The node at [p], without following symbolic links. *)
Fixpoint lookup (n : node) (p : path) : option node :=
  match p with
  | [] => Some n
  | c :: p' =>
      match n with
      | Dir es =>
          match find_entry c es with
          | Some n' => lookup n' p'
          | None => None
          end
      | _ => None
      end
  end.

(** The kernel's bound on the symbolic links followed in one resolution. *)
Definition MAXSYMLINKS : nat := 40.

(** Path resolution: [done] is the canonical path reached so far and [rest]
    what remains to be walked.  With [create] set, a final component that is
    absent from an existing directory resolves to the place where it would
    be created. *)
Fixpoint realpath_from (create : bool) (links : nat) (fs : node)
         (done rest : path) {struct links} : errno + path :=
  (fix go (done rest : path) {struct rest} : errno + path :=
     match rest with
     | [] => inr done
     | c :: rest' =>
         match lookup fs (done ++ [c]) with
         | Some (Symlink t) =>
             match links with
             | O => inl ELOOP
             | S l => realpath_from create l fs [] (t ++ rest')
             end
         | Some _ => go (done ++ [c]) rest'
         | None =>
             match lookup fs done, rest' with
             | Some (Dir _), [] => if create then inr (done ++ [c]) else inl ENOENT
             | Some (Dir _), _ :: _ => inl ENOENT
             | _, _ => inl ENOTDIR
             end
         end
     end) done rest.

Definition realpath (fs : node) (p : path) : errno + path :=
  realpath_from false MAXSYMLINKS fs [] p.

(** [os.stat]: the node a path leads to, symbolic links followed. *)
Definition stat (fs : node) (p : path) : errno + node :=
  match realpath fs p with
  | inr q =>
      match lookup fs q with
      | Some n => inr n
      | None => inl ENOENT
      end
  | inl e => inl e
  end.

Definition exists_ (fs : node) (p : path) : bool :=
  match stat fs p with
  | inr _ => true
  | inl _ => false
  end.

Definition is_file (fs : node) (p : path) : bool :=
  match stat fs p with
  | inr (File _) => true
  | _ => false
  end.

Definition is_dir (fs : node) (p : path) : bool :=
  match stat fs p with
  | inr (Dir _) => true
  | _ => false
  end.

(** [p.resolve()] on a path that exists; a path that does not resolve is
    returned as it is. *)
Definition resolve (fs : node) (p : path) : path :=
  match realpath fs p with
  | inr q => q
  | inl _ => p
  end.

(** [p.read_text(encoding="utf-8", errors="ignore")] *)
Definition read_text (fs : node) (p : path) : str + exn :=
  match stat fs p with
  | inr (File content) => content
  | inr (Dir _) => inr (OSError EISDIR p)
  | inr (Symlink _) => inr (OSError ELOOP p)
  | inl e => inr (OSError e p)
  end.

(** Replace the node at [p] by [new]; a final component that is absent is
    added at the end of its directory. *)
Fixpoint put (p : path) (new : node) (n : node) {struct p} : node :=
  match p with
  | [] => new
  | c :: p' =>
      match n with
      | Dir es =>
          Dir ((fix go (es : list (str * node)) : list (str * node) :=
                  match es with
                  | [] =>
                      match p' with
                      | [] => [(c, new)]
                      | _ :: _ => []
                      end
                  | (k, v) :: es' =>
                      if str_eqb k c then (k, put p' new v) :: es'
                      else (k, v) :: go es'
                  end) es)
      | _ => n
      end
  end.

(** [p.write_text(data, encoding="utf-8")]: create or truncate the file the
    path leads to.  Writing to a directory, below a missing directory or
    through a chain of links that does not resolve raises [OSError]. *)
Definition write_text (fs : node) (p : path) (data : str) : exn + node :=
  match realpath_from true MAXSYMLINKS fs [] p with
  | inr q =>
      match lookup fs q with
      | Some (Dir _) => inl (OSError EISDIR p)
      | Some (Symlink _) => inl (OSError ELOOP p)
      | Some (File _) | None => inr (put q (File (inl data)) fs)
      end
  | inl e => inl (OSError e p)
  end.

(** [pathlib]'s recursive wildcard: every entry of the directory, then the
    same for each of its subdirectories; symbolic links are not descended. *)
Fixpoint rglob_node (p : path) (n : node) : list path :=
  match n with
  | Dir es =>
      map (fun e => p ++ [fst e]) es
      ++ flat_map (fun e => rglob_node (p ++ [fst e]) (snd e)) es
  | _ => []
  end.

(** [p.rglob("*")] *)
Definition rglob (fs : node) (p : path) : list path :=
  match stat fs p with
  | inr n => rglob_node p n
  | inl _ => []
  end.

(** [os.walk(top)], top-down and without following links.  At every
    directory the loop body receives the path, the names of the
    subdirectories and the names of the other entries; it returns the list
    it leaves in [dirs] and what it collected.  The walk then descends into
    those subdirectories that are still listed and are not symbolic links. *)
Section Walk.

Variable A : Type.
Variable fs : node.
Variable body : path -> list str -> list str -> list str * list A.

Fixpoint walk_node (top : path) (n : node) : list A :=
  match n with
  | Dir es =>
      let names := map fst es in
      let dirs := filter (fun nm => is_dir fs (top ++ [nm])) names in
      let nondirs := filter (fun nm => negb (is_dir fs (top ++ [nm]))) names in
      let '(dirs', out) := body top dirs nondirs in
      out ++ flat_map
               (fun e =>
                  if str_in (fst e) dirs'
                  then match snd e with
                       | Dir _ => walk_node (top ++ [fst e]) (snd e)
                       | _ => []
                       end
                  else [])
               es
  | _ => []
  end.

Definition os_walk (top : path) : list A :=
  match stat fs top with
  | inr n => walk_node top n
  | inl _ => []
  end.

End Walk.

(** ** Clock *)

Record datetime : Type :=
  { year : nat; month : nat; day : nat; hour : nat; minute : nat; second : nat }.

(** [s.zfill(width)] on a string of digits. *)
Definition zfill (width : nat) (s : str) : str :=
  repeat 48%N (width - length s) ++ s.

(** [t.isoformat(timespec="seconds")] for a naive [datetime]. *)
Definition isoformat (t : datetime) : str :=
  zfill 4 (str_of_nat (year t)) ++ lit "-" ++ zfill 2 (str_of_nat (month t))
  ++ lit "-" ++ zfill 2 (str_of_nat (day t)) ++ lit "T"
  ++ zfill 2 (str_of_nat (hour t)) ++ lit ":" ++ zfill 2 (str_of_nat (minute t))
  ++ lit ":" ++ zfill 2 (str_of_nat (second t)).

(** A string that stays on one line. *)
Definition no_newline (s : str) : Prop := Forall (fun c => c <> 10%N) s.


(** ** Effects

    What a run can observe and change: the file system, the clock, and the
    trace of what it printed and of the [write_text] calls it made.  A
    computation either returns a value or raises. *)

Inductive event : Type :=
| Printed (line : str)
| WriteText (p : path) (data : str).

Record state : Type :=
  { fs : node; clock : datetime; trace : list event }.

Inductive result (A : Type) : Type :=
| Ok (a : A)
| Raise (e : exn).

Arguments Ok {A} a.
Arguments Raise {A} e.

Definition M (A : Type) : Type := state -> result A * state.

Definition ret {A : Type} (a : A) : M A := fun st => (Ok a, st).

Definition bind {A B : Type} (m : M A) (f : A -> M B) : M B :=
  fun st =>
    match m st with
    | (Ok a, st') => f a st'
    | (Raise e, st') => (Raise e, st')
    end.

Notation "x <- m ;; k" := (bind m (fun x => k))
  (at level 61, m at next level, right associativity).
Notation "m ;;; k" := (bind m (fun _ => k))
  (at level 61, right associativity).

Definition raise {A : Type} (e : exn) : M A := fun st => (Raise e, st).

Definition gets {A : Type} (f : state -> A) : M A := fun st => (Ok (f st), st).

Definition log (ev : event) (st : state) : state :=
  {| fs := fs st; clock := clock st; trace := trace st ++ [ev] |}.

(** [print(s)] *)
Definition print (s : str) : M unit :=
  fun st => (Ok tt, log (Printed s) st).

(** [datetime.now()] *)
Definition now : M datetime := gets clock.

(** [p.write_text(data, encoding="utf-8")] as an effect: the call is
    recorded, then the file system changes or the call raises. *)
Definition do_write_text (p : path) (data : str) : M unit :=
  fun st =>
    let st1 := log (WriteText p data) st in
    match write_text (fs st) p data with
    | inr fs' => (Ok tt, {| fs := fs'; clock := clock st1; trace := trace st1 |})
    | inl e => (Raise e, st1)
    end.

(** The lines printed and the [write_text] calls of a trace. *)
Definition printed (tr : list event) : list str :=
  flat_map (fun ev => match ev with Printed s => [s] | WriteText _ _ => [] end) tr.

Definition writes (tr : list event) : list (path * str) :=
  flat_map (fun ev => match ev with Printed _ => [] | WriteText p d => [(p, d)] end) tr.

(** [[f(x) for x in xs]] where [f] may raise. *)
Fixpoint mapM {A B : Type} (f : A -> M B) (xs : list A) : M (list B) :=
  match xs with
  | [] => ret []
  | x :: xs' => y <- f x ;; ys <- mapM f xs' ;; ret (y :: ys)
  end.

(** [enumerate(xs, start)] *)
Fixpoint enumerate {A : Type} (start : nat) (xs : list A) : list (nat * A) :=
  match xs with
  | [] => []
  | x :: xs' => (start, x) :: enumerate (S start) xs'
  end.

(** ** The program *)

Definition dquote : str := [34%N].
Definition newline : str := [10%N].

Section Program.

(** Python's Unicode table behind ["\w"], and [str(e)] for an exception:
    both belong to the interpreter, not to the repository. *)
Variable unicode_alnum : char -> bool.
Variable exn_str : exn -> str.

(** [Path(__file__).resolve().parents[1]] *)
Variable REPO_ROOT : path.

Definition OUTPUT_PATH : path := REPO_ROOT ++ [lit "LightingBundle.md"].

Definition file_matches (fs : node) (p : path) : bool :=
  if negb (is_file fs p) then false
  else if negb (in_CODE_EXTS (suffix p)) then false
  else match read_text fs p with
       | inr _ => false
       | inl text => existsb (fun rx => search unicode_alnum rx text) COMPILED
       end.

Definition lighting_crate : path :=
  REPO_ROOT ++ [lit "crates"; lit "geist-lighting"].

(** 1) Include the geist-lighting crate entirely. *)
Definition phase1 (fs : node) : list path :=
  if exists_ fs lighting_crate
  then filter (fun p => is_file fs p && in_CODE_EXTS (suffix p))
              (rglob fs lighting_crate)
  else [].

(** The test that guards the second [continue] of the scan. *)
Definition in_lighting_crate (root_path : path) : bool :=
  existsb (path_eqb lighting_crate) [root_path]
  || startswith (str_of_path root_path) (str_of_path lighting_crate).

(** The body of the loop over [os.walk(REPO_ROOT)]. *)
Definition scan_body (fs : node) (root_path : path) (dirs filenames : list str)
  : list str * list path :=
  if is_skipped_dir root_path then ([], [])
  else if in_lighting_crate root_path then (dirs, [])
  else (dirs,
        filter (fun p => in_CODE_EXTS (suffix p) && file_matches fs p)
               (map (fun fname => root_path ++ [fname]) filenames)).

(** 2) Scan remaining repo for integration points. *)
Definition phase2 (fs : node) : list path :=
  os_walk fs (scan_body fs) REPO_ROOT.

(** Normalize and de-duplicate while preserving order. *)
Fixpoint dedup (fs : node) (seen : list path) (files : list path) : list path :=
  match files with
  | [] => []
  | p :: rest =>
      let rp := resolve fs p in
      if existsb (path_eqb rp) seen
      then dedup fs seen rest
      else p :: dedup fs (rp :: seen) rest
  end.

Definition discover_files (fs : node) : list path :=
  dedup fs [] (phase1 fs ++ phase2 fs).

Definition header (ts : str) : list str :=
  [ lit "# Lighting Code Bundle";
    [];
    lit "Generated: " ++ ts;
    lit "Repository: " ++ str_of_path REPO_ROOT;
    [];
    lit "This file aggregates lighting-related code for review and optimization.";
    [] ].

Definition toc_entry (i : nat) (rp : path) : str :=
  lit "- [" ++ str_of_relpath rp ++ lit "] (#file-" ++ str_of_nat i ++ lit ")".

Definition heading (rp : path) : str := lit "## " ++ str_of_relpath rp.

Definition anchor (i : nat) : str :=
  lit "<a id=" ++ dquote ++ lit "file-" ++ str_of_nat i ++ dquote ++ lit "></a>".

(** The language tag and the content of the code block of [p]. *)
Definition code_block (fs : node) (p : path) : str * str :=
  let lang := language_for p in
  match read_text fs p with
  | inl content => (lang, content)
  | inr e => ([], lit "<Error reading file: " ++ exn_str e ++ lit ">")
  end.

(** The lines one iteration of the second loop appends. *)
Definition file_section (fs : node) (i : nat) (rp p : path) : list str :=
  let '(lang, content) := code_block fs p in
  [ lit "---";
    [];
    heading rp;
    anchor i;
    [];
    lit "```" ++ lang;
    content;
    lit "```";
    [] ].

Definition bundle_lines (fs : node) (ts : str) (rel_paths files : list path)
  : list str :=
  header ts
  ++ [lit "## Table of Contents"]
  ++ map (fun irp => toc_entry (fst irp) (snd irp)) (enumerate 1 rel_paths)
  ++ [[]]
  ++ flat_map (fun x => file_section fs (fst x) (fst (snd x)) (snd (snd x)))
              (enumerate 1 (combine rel_paths files)).

Definition relative_to_root (p : path) : M path :=
  match relative_to p REPO_ROOT with
  | Some rp => ret rp
  | None => raise (ValueError p REPO_ROOT)
  end.

Definition write_bundle (files : list path) : M unit :=
  rel_paths <- mapM relative_to_root files ;;
  t <- now ;;
  tree <- gets fs ;;
  do_write_text OUTPUT_PATH
    (join newline (bundle_lines tree (isoformat t) rel_paths files)).

Definition main (argv : list str) : M Z :=
  files <- gets (fun st => discover_files (fs st)) ;;
  match files with
  | [] =>
      print (lit "No lighting-related files found.") ;;;
      ret 1%Z
  | _ :: _ =>
      write_bundle files ;;;
      print (lit "Wrote " ++ str_of_nat (length files) ++ lit " files to "
             ++ str_of_path OUTPUT_PATH) ;;;
      ret 0%Z
  end.

End Program.

(** ** Calls that the operating system refuses

    From the tree alone [os.stat] fails with [ENOENT], [ENOTDIR] or
    [ELOOP], and [pathlib] takes each of them for the answer "no".  A call
    can also be refused for what the tree does not hold: a directory on
    the way that is listed but may not be searched ([EACCES]), a name that
    is too long ([ENAMETOOLONG]), an output file or a directory that may
    not be written.  The functions of the program are given here once more
    with these refusals: [stat_refused p] is the error with which the
    [os.stat(p)] of [Path.is_file] and [Path.exists] fails, if it does,
    and [write_refused p] the error with which opening [p] for writing
    fails.  [Path.is_file] and [Path.exists] answer [False] on the errors
    of [_IGNORED_ERRNOS] and raise on every other, as [pathlib] does in
    the versions that define [_ignore_error].  Listing stays as it is in
    the tree: [os.walk] and [rglob] take the kind of an entry from the
    listing, and where they call [os.stat] themselves, for an entry that
    is a symbolic link, they take a failure for "not a directory" and
    never raise. *)

Module Raising.

Section Refusals.

Variable stat_refused : path -> option errno.
Variable write_refused : path -> option errno.
Variable unicode_alnum : char -> bool.
Variable exn_str : exn -> str.
Variable REPO_ROOT : path.

(** [os.stat(p)] *)
Definition os_stat (tree : node) (p : path) : errno + node :=
  match stat_refused p with
  | Some e => inl e
  | None => stat tree p
  end.

(** [pathlib._ignore_error]: membership in [_IGNORED_ERRNOS]. *)
Definition ignored_errno (e : errno) : bool :=
  match e with
  | ENOENT | ENOTDIR | EBADF | ELOOP => true
  | _ => false
  end.

(** [p.is_file()] *)
Definition is_file (tree : node) (p : path) : result bool :=
  match os_stat tree p with
  | inr (File _) => Ok true
  | inr _ => Ok false
  | inl e => if ignored_errno e then Ok false else Raise (OSError e p)
  end.

(** [p.exists()] *)
Definition exists_ (tree : node) (p : path) : result bool :=
  match os_stat tree p with
  | inr _ => Ok true
  | inl e => if ignored_errno e then Ok false else Raise (OSError e p)
  end.

(** The test of line 47 is outside the [try] of lines 51 to 54. *)
Definition file_matches (tree : node) (p : path) : result bool :=
  match is_file tree p with
  | Raise e => Raise e
  | Ok false => Ok false
  | Ok true =>
      if negb (in_CODE_EXTS (suffix p)) then Ok false
      else match read_text tree p with
           | inr _ => Ok false
           | inl text => Ok (existsb (fun rx => search unicode_alnum rx text) COMPILED)
           end
  end.

(** A loop that appends the elements passing a test that may raise. *)
Fixpoint filter_r {A : Type} (f : A -> result bool) (l : list A) : result (list A) :=
  match l with
  | [] => Ok []
  | x :: l' =>
      match f x with
      | Raise e => Raise e
      | Ok b =>
          match filter_r f l' with
          | Raise e => Raise e
          | Ok r => Ok (if b then x :: r else r)
          end
      end
  end.

(** 1) Include the geist-lighting crate entirely. *)
Definition phase1 (tree : node) : result (list path) :=
  match exists_ tree (lighting_crate REPO_ROOT) with
  | Raise e => Raise e
  | Ok false => Ok []
  | Ok true =>
      filter_r (fun p => match is_file tree p with
                         | Raise e => Raise e
                         | Ok b => Ok (b && in_CODE_EXTS (suffix p))
                         end)
               (rglob tree (lighting_crate REPO_ROOT))
  end.

(** The body of the loop over [os.walk(REPO_ROOT)]; [file_matches] is
    called on the names with a listed extension only. *)
Definition scan_body (tree : node) (root_path : path) (dirs filenames : list str)
  : result (list str * list path) :=
  if is_skipped_dir root_path then Ok ([], [])
  else if in_lighting_crate REPO_ROOT root_path then Ok (dirs, [])
  else match filter_r (fun p => if in_CODE_EXTS (suffix p)
                                then file_matches tree p else Ok false)
                      (map (fun fname => root_path ++ [fname]) filenames) with
       | Raise e => Raise e
       | Ok found => Ok (dirs, found)
       end.

(** [os.walk] with a loop body that may raise: the walk ends there. *)
Fixpoint walk_node {A : Type} (tree : node)
         (body : path -> list str -> list str -> result (list str * list A))
         (top : path) (n : node) : result (list A) :=
  match n with
  | Dir es =>
      let names := map fst es in
      let dirs := filter (fun nm => is_dir tree (top ++ [nm])) names in
      let nondirs := filter (fun nm => negb (is_dir tree (top ++ [nm]))) names in
      match body top dirs nondirs with
      | Raise e => Raise e
      | Ok (dirs', out) =>
          match
            (fix go (es : list (str * node)) : result (list A) :=
               match es with
               | [] => Ok []
               | e :: es' =>
                   match (if str_in (fst e) dirs'
                          then match snd e with
                               | Dir _ => walk_node tree body (top ++ [fst e]) (snd e)
                               | _ => Ok []
                               end
                          else Ok []) with
                   | Raise x => Raise x
                   | Ok here =>
                       match go es' with
                       | Raise x => Raise x
                       | Ok rest => Ok (here ++ rest)
                       end
                   end
               end) es
          with
          | Raise e => Raise e
          | Ok below => Ok (out ++ below)
          end
      end
  | _ => Ok []
  end.

Definition os_walk {A : Type} (tree : node)
           (body : path -> list str -> list str -> result (list str * list A))
           (top : path) : result (list A) :=
  match stat tree top with
  | inr n => walk_node tree body top n
  | inl _ => Ok []
  end.

(** 2) Scan remaining repo for integration points. *)
Definition phase2 (tree : node) : result (list path) :=
  os_walk tree (scan_body tree) REPO_ROOT.

Definition discover_files (tree : node) : result (list path) :=
  match phase1 tree with
  | Raise e => Raise e
  | Ok found1 =>
      match phase2 tree with
      | Raise e => Raise e
      | Ok found2 => Ok (dedup tree [] (found1 ++ found2))
      end
  end.

(** [p.write_text(data, encoding="utf-8")] *)
Definition write_text (tree : node) (p : path) (data : str) : exn + node :=
  match write_refused p with
  | Some e => inl (OSError e p)
  | None => write_text tree p data
  end.

Definition do_write_text (p : path) (data : str) : M unit :=
  fun st =>
    let st1 := log (WriteText p data) st in
    match write_text (fs st) p data with
    | inr fs' => (Ok tt, {| fs := fs'; clock := clock st1; trace := trace st1 |})
    | inl e => (Raise e, st1)
    end.

Definition write_bundle (files : list path) : M unit :=
  rel_paths <- mapM (relative_to_root REPO_ROOT) files ;;
  t <- now ;;
  tree <- gets fs ;;
  do_write_text (OUTPUT_PATH REPO_ROOT)
    (join newline (bundle_lines exn_str REPO_ROOT tree (isoformat t) rel_paths files)).

Definition main (argv : list str) : M Z :=
  files <- (fun st => (discover_files (fs st), st)) ;;
  match files with
  | [] =>
      print (lit "No lighting-related files found.") ;;;
      ret 1%Z
  | _ :: _ =>
      write_bundle files ;;;
      print (lit "Wrote " ++ str_of_nat (length files) ++ lit " files to "
             ++ str_of_path (OUTPUT_PATH REPO_ROOT)) ;;;
      ret 0%Z
  end.

End Refusals.

End Raising.

(** [subseq l1 l2]: [l1] is [l2] with some elements left out, order kept. *)
Inductive subseq {A : Type} : list A -> list A -> Prop :=
| subseq_nil : subseq [] []
| subseq_skip : forall x l1 l2, subseq l1 l2 -> subseq l1 (x :: l2)
| subseq_keep : forall x l1 l2, subseq l1 l2 -> subseq (x :: l1) (x :: l2).

#[local] Hint Constructors subseq : core.

(** ** Notions used to state properties *)

(** The extensions that are keys of [CODE_EXTS]. *)
Definition code_extensions : list str := map fst CODE_EXTS.

(** The words the patterns of [PATTERNS] spell out. *)
Definition KEYWORDS : list str :=
  [ lit "geist_lighting"; lit "Lighting"; lit "LightingStore";
    lit "LightingBorder"; lit "Lightings"; lit "Light"; lit "LightBorders";
    lit "LightEmitter" ].

(** [whole_word ua w text]: [w] occurs in [text] with no word character
    right before it and none right after it. *)
Definition whole_word (ua : char -> bool) (w text : str) : Prop :=
  exists pre post,
    text = pre ++ w ++ post
    /\ is_word ua (prev_after None pre) = false
    /\ is_word ua (hd_error post) = false.

(** [plain_from tree done rest]: walking [rest] from [done] meets an entry
    at every step, and none of them is a symbolic link. *)
Fixpoint plain_from (tree : node) (done rest : path) : Prop :=
  match rest with
  | [] => True
  | c :: rest' =>
      (exists x, lookup tree (done ++ [c]) = Some x /\ forall t, x <> Symlink t)
      /\ plain_from tree (done ++ [c]) rest'
  end.

(** [links_free n]: the tree holds no symbolic link. *)
Fixpoint links_free (n : node) : bool :=
  match n with
  | File _ => true
  | Dir es => forallb (fun e => links_free (snd e)) es
  | Symlink _ => false
  end.

(** [plain_repository tree root]: no symbolic link on the way to [root],
    and none in the tree that hangs there. *)
Definition plain_repository (tree : node) (root : path) : Prop :=
  plain_from tree [] root
  /\ exists repo, lookup tree root = Some repo /\ links_free repo = true.

(** The entries of a directory after [put] went through the entry [c]. *)
Fixpoint put_entries (c : str) (p' : path) (new : node) (es : list (str * node))
  : list (str * node) :=
  match es with
  | [] =>
      match p' with
      | [] => [(c, new)]
      | _ :: _ => []
      end
  | (k, v) :: es' =>
      if str_eqb k c then (k, put p' new v) :: es'
      else (k, v) :: put_entries c p' new es'
  end.

(** ** A repository to run on *)

(** A table without alphanumerics beyond ASCII and a plain rendering of
    exceptions; the texts below are ASCII. *)
Definition ascii_only : char -> bool := fun _ => false.

Definition plain_exn_str (e : exn) : str :=
  match e with
  | OSError _ filename => lit "cannot read " ++ str_of_path filename
  | ValueError p _ => lit "not below the root: " ++ str_of_path p
  end.

Definition text_file (s : string) : node := File (inl (lit s)).

(** The tree that holds [n] at [p] and nothing else. *)
Definition in_dirs (p : path) (n : node) : node :=
  fold_right (fun c acc => Dir [(c, acc)]) n p.

Definition example_root : path := [lit "home"; lit "dev"; lit "geist"].

Definition example_repo : node :=
  Dir [ (lit "Cargo.toml", text_file "[workspace]");
        (lit "crates",
         Dir [ (lit "geist-lighting",
                Dir [ (lit "Cargo.toml", text_file "[package]");
                      (lit "src", Dir [ (lit "lib.rs", text_file "pub fn propagate() {}") ]);
                      (lit "target", Dir [ (lit "out.rs", text_file "// generated") ]) ]);
               (lit "geist-lighting-extra",
                Dir [ (lit "lib.rs", text_file "use geist_lighting::LightGrid;") ]);
               (lit "geist-render",
                Dir [ (lit "src",
                       Dir [ (lit "mesh.rs", text_file "fn f(s: &LightingStore) {}");
                             (lit "util.rs", text_file "fn g() {}") ]) ]) ]);
        (lit "target", Dir [ (lit "debug.rs", text_file "struct Light;") ]) ].

Definition example_tree : node := in_dirs example_root example_repo.

Definition example_crate : path := lighting_crate example_root.

Definition example_skipped_file : path :=
  example_crate ++ [lit "target"; lit "out.rs"].

Definition example_sibling : path :=
  example_root ++ [lit "crates"; lit "geist-lighting-extra"].

Definition example_clock : datetime :=
  {| year := 2024; month := 3; day := 7; hour := 9; minute := 5; second := 1 |}.

Definition later_clock : datetime :=
  {| year := 2024; month := 3; day := 7; hour := 9; minute := 6; second := 30 |}.

(** The example repository on a system with a symbolic link outside it. *)
Definition example_system : node :=
  Dir [ (lit "bin", Symlink [lit "usr"; lit "bin"]);
        (lit "usr", Dir [ (lit "bin", Dir []) ]);
        (lit "home", Dir [ (lit "dev", Dir [ (lit "geist", example_repo) ]) ]) ].

(** A repository whose root lies below a directory named [target]. *)
Definition nested_root : path := [lit "build"; lit "target"; lit "geist"].

Definition nested_tree : node := in_dirs nested_root example_repo.

(** A repository in which the output path is taken by a directory. *)
Definition blocked_tree : node :=
  in_dirs example_root
    (Dir [ (lit "LightingBundle.md", Dir []);
           (lit "crates",
            Dir [ (lit "geist-lighting",
                   Dir [ (lit "lib.rs", text_file "pub fn propagate() {}") ]) ]) ]).

(** A repository with nothing to find. *)
Definition bare_tree : node :=
  in_dirs example_root (Dir [ (lit "README.md", text_file "Lighting") ]).

(** A repository whose primary directory holds a file that cannot be read. *)
Definition locked_file : path := example_crate ++ [lit "secret.rs"].

Definition locked_tree : node :=
  in_dirs example_root
    (Dir [ (lit "crates",
            Dir [ (lit "geist-lighting",
                   Dir [ (lit "secret.rs", File (inr (OSError EACCES locked_file)));
                         (lit "open.rs", text_file "fn open() {}") ]) ]) ]).

(** An operating system that refuses nothing, and one under which the
    directory [d] is listed but may not be searched: [os.stat] fails with
    [EACCES] on every path strictly below [d]. *)
Definition nothing_refused : path -> option errno := fun _ => None.

Definition unsearchable (d : path) : path -> option errno :=
  fun p =>
    match relative_to p d with
    | Some (_ :: _) => Some EACCES
    | _ => None
    end.

Definition example_src : path :=
  example_root ++ [lit "crates"; lit "geist-render"; lit "src"].

Definition example_mesh : path := example_src ++ [lit "mesh.rs"].

Ltac pick_member := repeat first [left; reflexivity | right].

(** * Properties *)

(** ** Strings and paths *)

Lemma char_eqb_eq (a b : char) : char_eqb a b = true <-> a = b.
Proof. apply N.eqb_eq. Qed.

Lemma str_eqb_eq (a b : str) : str_eqb a b = true <-> a = b.
Proof.
  revert b; induction a as [|x a IH]; intros [|y b]; simpl;
    try (split; [discriminate | discriminate]); try tauto.
  rewrite andb_true_iff, char_eqb_eq, IH.
  split; [intros [-> ->]; reflexivity | intros H; injection H; auto].
Qed.

Lemma str_eqb_refl (a : str) : str_eqb a a = true.
Proof. apply str_eqb_eq; reflexivity. Qed.

Lemma path_eqb_eq (p q : path) : path_eqb p q = true <-> p = q.
Proof.
  revert q; induction p as [|x p IH]; intros [|y q]; simpl;
    try (split; [discriminate | discriminate]); try tauto.
  rewrite andb_true_iff, str_eqb_eq, IH.
  split; [intros [-> ->]; reflexivity | intros H; injection H; auto].
Qed.

Lemma str_in_In (x : str) (xs : list str) : str_in x xs = true <-> In x xs.
Proof.
  unfold str_in; rewrite existsb_exists; split.
  - intros (y & Hy & E); apply str_eqb_eq in E; subst; exact Hy.
  - intros H; exists x; split; [exact H | apply str_eqb_refl].
Qed.

Lemma path_in_In (x : path) (xs : list path) :
  existsb (path_eqb x) xs = true <-> In x xs.
Proof.
  rewrite existsb_exists; split.
  - intros (y & Hy & E); apply path_eqb_eq in E; subst; exact Hy.
  - intros H; exists x; split; [exact H | apply path_eqb_eq; reflexivity].
Qed.

Lemma relative_to_app (base rel : path) : relative_to (base ++ rel) base = Some rel.
Proof.
  induction base as [|b base IH]; simpl; [destruct rel; reflexivity|].
  rewrite str_eqb_refl; exact IH.
Qed.

Lemma relative_to_Some (p base rel : path) :
  relative_to p base = Some rel -> p = base ++ rel.
Proof.
  revert p; induction base as [|b base IH]; intros p.
  - destruct p; simpl; intros H; injection H; auto.
  - destruct p as [|c p]; simpl; [discriminate|].
    destruct (str_eqb b c) eqn:E; [|discriminate].
    apply str_eqb_eq in E; subst c.
    intros H; apply IH in H; subst p; reflexivity.
Qed.

Lemma startswith_app (a t : str) : startswith (a ++ t) a = true.
Proof.
  induction a as [|x a IH]; simpl; [destruct t; reflexivity|].
  rewrite IH, (proj2 (char_eqb_eq x x) eq_refl); reflexivity.
Qed.

(** Joining a longer list of parts extends the joined text. *)
Lemma join_app_prefix (sep : str) (a b : list str) :
  exists t, join sep (a ++ b) = join sep a ++ t.
Proof.
  induction a as [|x a IH]; [exists (join sep b); reflexivity|].
  destruct IH as [t Ht].
  destruct a as [|y a].
  - destruct b as [|z b]; [exists []; simpl; rewrite app_nil_r; reflexivity|].
    exists (sep ++ join sep (z :: b)); reflexivity.
  - exists t; simpl in *; rewrite Ht, <- !app_assoc; reflexivity.
Qed.

Lemma str_of_path_under (base rel : path) :
  startswith (str_of_path (base ++ rel)) (str_of_path base) = true.
Proof.
  unfold str_of_path.
  destruct (join_app_prefix (lit "/") base rel) as [t ->].
  rewrite app_assoc; apply startswith_app.
Qed.

Lemma name_snoc (d : path) (fname : str) : name (d ++ [fname]) = fname.
Proof. unfold name; apply last_last. Qed.

Lemma suffix_snoc (d : path) (fname : str) : suffix (d ++ [fname]) = suffix [fname].
Proof. unfold suffix; rewrite name_snoc; reflexivity. Qed.



Lemma is_skipped_dir_app (d rel : path) :
  is_skipped_dir d = true -> is_skipped_dir (d ++ rel) = true.
Proof.
  unfold is_skipped_dir, parts; intros H.
  change (lit "/" :: d ++ rel) with ((lit "/" :: d) ++ rel).
  rewrite existsb_app, H; reflexivity.
Qed.

(** ** Induction on the directory tree *)

Lemma node_tree_ind (P : node -> Prop) :
  (forall content, P (File content)) ->
  (forall es, Forall (fun e => P (snd e)) es -> P (Dir es)) ->
  (forall target, P (Symlink target)) ->
  forall n, P n.
Proof.
  intros HF HD HS; fix IH 1; intros [content | es | target].
  - apply HF.
  - apply HD; induction es as [|e es IHes]; constructor; [apply IH | exact IHes].
  - apply HS.
Qed.

(** ** Walking the tree *)

Lemma under_refl (p : path) : under p p.
Proof. exists []; rewrite app_nil_r; reflexivity. Qed.

Lemma under_trans (a b c : path) : under a b -> under b c -> under a c.
Proof.
  intros [r1 ->] [r2 ->]; exists (r1 ++ r2); rewrite app_assoc; reflexivity.
Qed.

Lemma under_snoc (a : path) (c : str) : under a (a ++ [c]).
Proof. exists [c]; reflexivity. Qed.

Lemma rglob_node_under (n : node) :
  forall p q, In q (rglob_node p n) -> under p q.
Proof.
  induction n as [content | es IH | target] using node_tree_ind;
    intros p q; simpl; try contradiction.
  rewrite in_app_iff, in_map_iff, in_flat_map.
  intros [(e & <- & _) | (e & He & Hq)].
  - apply under_snoc.
  - rewrite Forall_forall in IH.
    apply under_trans with (p ++ [fst e]); [apply under_snoc|].
    exact (IH e He _ _ Hq).
Qed.

Lemma rglob_under (tree : node) (p q : path) : In q (rglob tree p) -> under p q.
Proof.
  unfold rglob; destruct (stat tree p); [contradiction|].
  apply rglob_node_under.
Qed.

Section WalkFacts.

Variable A : Type.
Variable tree : node.
Variable body : path -> list str -> list str -> list str * list A.

(** Whatever the walk yields was collected by the body at some directory
    at or below the starting point, from names listed there. *)
Lemma walk_node_collects (n : node) :
  forall top x, In x (walk_node tree body top n) ->
    exists d dirs nondirs, under top d /\ In x (snd (body d dirs nondirs)).
Proof.
  induction n as [content | es IH | target] using node_tree_ind;
    intros top x; simpl; try contradiction.
  destruct (body top _ _) as [dirs' out] eqn:Hbody.
  rewrite in_app_iff, in_flat_map.
  intros [Hx | (e & He & Hx)].
  - eexists top, _, _; split; [apply under_refl|].
    rewrite Hbody; exact Hx.
  - destruct (str_in (fst e) dirs'); [|contradiction].
    rewrite Forall_forall in IH; specialize (IH e He).
    destruct (snd e) as [c | es' | t] eqn:Hsnd; try contradiction.
    destruct (IH _ _ Hx) as (d & dirs & nondirs & Hd & Hin).
    exists d, dirs, nondirs; split; [|exact Hin].
    apply under_trans with (top ++ [fst e]); [apply under_snoc | exact Hd].
Qed.

Lemma os_walk_collects (top : path) (x : A) :
  In x (os_walk tree body top) ->
  exists d dirs nondirs, under top d /\ In x (snd (body d dirs nondirs)).
Proof.
  unfold os_walk; destruct (stat tree top); [contradiction|].
  apply walk_node_collects.
Qed.

(** A body that empties [dirs] at the top stops the walk there. *)
Lemma walk_node_pruned (top : path) (n : node) :
  (forall dirs nondirs, fst (body top dirs nondirs) = []) ->
  walk_node tree body top n
  = match n with
    | Dir es =>
        snd (body top
               (filter (fun nm => is_dir tree (top ++ [nm])) (map fst es))
               (filter (fun nm => negb (is_dir tree (top ++ [nm]))) (map fst es)))
    | _ => []
    end.
Proof.
  intros Hprune; destruct n as [c | es | t]; simpl; try reflexivity.
  specialize (Hprune (filter (fun nm => is_dir tree (top ++ [nm])) (map fst es))
                     (filter (fun nm => negb (is_dir tree (top ++ [nm]))) (map fst es))).
  destruct (body top _ _) as [dirs' out]; simpl in *; subst dirs'.
  replace (flat_map _ es) with (@nil A); [apply app_nil_r|].
  symmetry; clear; induction es as [|e es IH]; simpl; [reflexivity | exact IH].
Qed.

End WalkFacts.

(** ** De-duplication *)

Section Dedup.

Variable tree : node.

Let res := resolve tree.

Lemma dedup_In (files : list path) :
  forall seen p, In p (dedup tree seen files) ->
    In p files /\ ~ In (res p) seen.
Proof.
  induction files as [|q files IH]; intros seen p; simpl; [contradiction|].
  destruct (existsb (path_eqb (resolve tree q)) seen) eqn:E.
  - intros H; apply IH in H; tauto.
  - intros [<- | H].
    + split; [auto|]. rewrite <- path_in_In. unfold res. rewrite E. discriminate.
    + apply IH in H; simpl in H. tauto.
Qed.

Lemma dedup_subseq (files : list path) :
  forall seen, subseq (dedup tree seen files) files.
Proof.
  induction files as [|q files IH]; intros seen; simpl; [auto|].
  destruct (existsb _ seen); auto.
Qed.

Lemma dedup_NoDup (files : list path) :
  forall seen, NoDup (map res (dedup tree seen files)).
Proof.
  induction files as [|q files IH]; intros seen; simpl; [constructor|].
  destruct (existsb _ seen) eqn:E; [apply IH|].
  simpl; constructor; [|apply IH].
  rewrite in_map_iff; intros (p & Hp & Hin).
  apply dedup_In in Hin; destruct Hin as [_ Hn].
  apply Hn; rewrite Hp; left; reflexivity.
Qed.

(** Only membership in [seen] matters. *)
Lemma dedup_seen_ext (files : list path) :
  forall seen seen', (forall x, In x seen <-> In x seen') ->
    dedup tree seen files = dedup tree seen' files.
Proof.
  induction files as [|q files IH]; intros seen seen' Hext; simpl; [reflexivity|].
  assert (E : existsb (path_eqb (resolve tree q)) seen
              = existsb (path_eqb (resolve tree q)) seen').
  { apply eq_true_iff_eq; rewrite !path_in_In; apply Hext. }
  rewrite E; destruct (existsb _ seen').
  - apply IH, Hext.
  - f_equal; apply IH; intros x; simpl; rewrite Hext; tauto.
Qed.

(** Every file is represented in the result, unless already seen. *)
Lemma dedup_complete (files : list path) :
  forall seen p, In p files ->
    In (res p) seen \/ In (res p) (map res (dedup tree seen files)).
Proof.
  induction files as [|q files IH]; intros seen p; simpl; [contradiction|].
  destruct (existsb (path_eqb (resolve tree q)) seen) eqn:E.
  - intros [<- | H]; [left; apply path_in_In; exact E | apply IH; exact H].
  - intros [<- | H]; [right; left; reflexivity|].
    destruct (IH (resolve tree q :: seen) p H) as [[Hq | Hs] | Hr].
    + right; left; exact Hq.
    + left; exact Hs.
    + right; right; exact Hr.
Qed.

Lemma dedup_app (l1 l2 : list path) :
  forall seen,
    dedup tree seen (l1 ++ l2)
    = dedup tree seen l1 ++ dedup tree (map res l1 ++ seen) l2.
Proof.
  induction l1 as [|q l1 IH]; intros seen; simpl; [reflexivity|].
  destruct (existsb (path_eqb (resolve tree q)) seen) eqn:E.
  - rewrite IH; f_equal; apply dedup_seen_ext.
    apply path_in_In in E; fold (res q) in E.
    intros x; simpl; rewrite !in_app_iff; split; [tauto|].
    intros [<- | [H | H]]; auto.
  - simpl; rewrite IH; do 2 f_equal; apply dedup_seen_ext.
    intros x; simpl; rewrite !in_app_iff; simpl; tauto.
Qed.

(** The first occurrence of a resolved path is the one that is kept. *)
Lemma dedup_first (l1 l2 : list path) (p : path) :
  ~ In (res p) (map res l1) -> In p (dedup tree [] (l1 ++ p :: l2)).
Proof.
  intros Hfresh; rewrite dedup_app, in_app_iff; right; simpl.
  rewrite app_nil_r.
  destruct (existsb (path_eqb (resolve tree p)) (map res l1)) eqn:E.
  - apply path_in_In in E; contradiction.
  - left; reflexivity.
Qed.

End Dedup.

(** ** Discovery *)

Section Discovery.

Variable unicode_alnum : char -> bool.
Variable REPO_ROOT : path.
Variable tree : node.

Let crate := lighting_crate REPO_ROOT.
Let found1 := phase1 REPO_ROOT tree.
Let found2 := phase2 unicode_alnum REPO_ROOT tree.
Let res := resolve tree.

Lemma is_file_exists (p : path) : is_file tree p = true -> exists_ tree p = true.
Proof.
  unfold is_file, exists_; destruct (stat tree p); [discriminate | reflexivity].
Qed.

Lemma file_matches_true (p : path) :
  file_matches unicode_alnum tree p = true ->
  is_file tree p = true /\ in_CODE_EXTS (suffix p) = true.
Proof.
  unfold file_matches.
  destruct (is_file tree p); simpl; [|discriminate].
  destruct (in_CODE_EXTS (suffix p)); simpl; [auto | discriminate].
Qed.

Lemma phase1_spec (p : path) :
  In p found1 ->
  under crate p /\ is_file tree p = true /\ in_CODE_EXTS (suffix p) = true.
Proof.
  unfold found1, phase1.
  destruct (exists_ tree (lighting_crate REPO_ROOT)); [|contradiction].
  rewrite filter_In, andb_true_iff; intros [Hin [Hf He]].
  split; [exact (rglob_under _ _ _ Hin) | auto].
Qed.

(** A file of the second phase sits directly in a directory at or below
    the root that passed both guards of the loop, and passed the content
    test. *)
Lemma phase2_spec (p : path) :
  In p found2 ->
  exists d fname,
    p = d ++ [fname] /\ under REPO_ROOT d
    /\ is_skipped_dir d = false /\ in_lighting_crate REPO_ROOT d = false
    /\ in_CODE_EXTS (suffix p) = true
    /\ file_matches unicode_alnum tree p = true.
Proof.
  unfold found2, phase2; intros H.
  apply os_walk_collects in H.
  destruct H as (d & dirs & nondirs & Hd & Hin).
  unfold scan_body in Hin.
  destruct (is_skipped_dir d) eqn:Hskip; [contradiction|].
  destruct (in_lighting_crate REPO_ROOT d) eqn:Hcrate; [contradiction|].
  simpl in Hin; rewrite filter_In, in_map_iff, andb_true_iff in Hin.
  destruct Hin as [(fname & <- & _) [He Hm]].
  exists d, fname; auto 10.
Qed.


Lemma crate_under_root : under REPO_ROOT crate.
Proof. eexists; reflexivity. Qed.

Lemma found_under_root (p : path) : In p (found1 ++ found2) -> under REPO_ROOT p.
Proof.
  rewrite in_app_iff; intros [H | H].
  - apply phase1_spec in H; destruct H as [H _].
    exact (under_trans crate_under_root H).
  - destruct (phase2_spec _ H) as (d & fname & -> & Hd & _).
    exact (under_trans Hd (under_snoc d fname)).
Qed.

Lemma discover_files_In (p : path) :
  In p (discover_files unicode_alnum REPO_ROOT tree) -> In p (found1 ++ found2).
Proof. unfold discover_files; intros H; apply dedup_In in H; tauto. Qed.

(** The primary directory and every directory below it meet the guard of
    the scan, which leaves [dirs] as it found them: nothing is pruned. *)
Lemma below_primary_is_passed_over (d : path) (dirs filenames : list str) :
  under crate d -> is_skipped_dir d = false ->
  in_lighting_crate REPO_ROOT d = true
  /\ scan_body unicode_alnum REPO_ROOT tree d dirs filenames = (dirs, []).
Proof.
  intros [rel ->] Hskip.
  assert (H : in_lighting_crate REPO_ROOT (crate ++ rel) = true).
  { unfold in_lighting_crate; apply orb_true_iff; right.
    apply str_of_path_under. }
  split; [exact H|].
  unfold scan_body; rewrite Hskip; fold crate; rewrite H; reflexivity.
Qed.


(** C3: every path returned by [discover_files] exists, is a regular file
    and has an extension that is a key of [CODE_EXTS]; the resolved paths
    of the list are pairwise distinct; the list keeps the order in which
    the files were found, the first file found for a resolved path being
    the one that stays; and the files of the first phase come first, a
    file of the second phase staying only when it resolves to none of
    them. *)
Theorem discover_files_invariant :
  let found := phase1 REPO_ROOT tree ++ phase2 unicode_alnum REPO_ROOT tree in
  let out := discover_files unicode_alnum REPO_ROOT tree in
  (forall p, In p out ->
     exists_ tree p = true /\ is_file tree p = true
     /\ in_CODE_EXTS (suffix p) = true)
  /\ NoDup (map (resolve tree) out)
  /\ subseq out found
  /\ (forall p, In p found -> In (resolve tree p) (map (resolve tree) out))
  /\ (forall l1 p l2, found = l1 ++ p :: l2 ->
        ~ In (resolve tree p) (map (resolve tree) l1) -> In p out)
  /\ exists rest,
       out = dedup tree [] (phase1 REPO_ROOT tree) ++ rest
       /\ subseq rest (phase2 unicode_alnum REPO_ROOT tree)
       /\ forall q, In q rest ->
            ~ In (resolve tree q) (map (resolve tree) (phase1 REPO_ROOT tree)).
Proof.
  cbv zeta; fold found1 found2; unfold discover_files; fold found1 found2.
  repeat split.
  - apply is_file_exists.
    apply dedup_In in H; destruct H as [H _].
    apply in_app_iff in H; destruct H as [H | H].
    + apply phase1_spec in H; tauto.
    + apply phase2_spec in H.
      destruct H as (d & fname & _ & _ & _ & _ & _ & Hm).
      apply file_matches_true in Hm; tauto.
  - apply dedup_In in H; destruct H as [H _].
    apply in_app_iff in H; destruct H as [H | H].
    + apply phase1_spec in H; tauto.
    + apply phase2_spec in H.
      destruct H as (d & fname & _ & _ & _ & _ & _ & Hm).
      apply file_matches_true in Hm; tauto.
  - apply dedup_In in H; destruct H as [H _].
    apply in_app_iff in H; destruct H as [H | H].
    + apply phase1_spec in H; tauto.
    + apply phase2_spec in H.
      destruct H as (d & fname & _ & _ & _ & _ & He & _); exact He.
  - apply dedup_NoDup.
  - apply dedup_subseq.
  - intros p Hp.
    destruct (dedup_complete tree _ [] _ Hp) as [[] | H]; exact H.
  - intros l1 p l2 -> Hfresh; apply dedup_first; exact Hfresh.
  - exists (dedup tree (map (resolve tree) found1 ++ []) found2).
    split; [apply dedup_app|].
    split; [apply dedup_subseq|].
    intros q Hq; apply dedup_In in Hq; destruct Hq as [_ Hq].
    rewrite app_nil_r in Hq; exact Hq.
Qed.

(** C10: [is_skipped_dir] looks at every component of the absolute path,
    so a directory below a root whose own path has a skip-listed component
    is itself skipped; with such a root the scan prunes at every directory
    it is given, the second phase finds nothing, and [discover_files]
    returns files of the first phase only, all beneath the primary
    directory. *)
Theorem skip_listed_root_prunes_scan :
  is_skipped_dir REPO_ROOT = true ->
  (forall rel, is_skipped_dir (REPO_ROOT ++ rel) = true)
  /\ (forall rel dirs filenames,
        scan_body unicode_alnum REPO_ROOT tree (REPO_ROOT ++ rel) dirs filenames
        = ([], []))
  /\ phase2 unicode_alnum REPO_ROOT tree = []
  /\ discover_files unicode_alnum REPO_ROOT tree
     = dedup tree [] (phase1 REPO_ROOT tree)
  /\ forall p, In p (discover_files unicode_alnum REPO_ROOT tree) ->
       In p (phase1 REPO_ROOT tree) /\ under (lighting_crate REPO_ROOT) p.
Proof.
  intros Hroot.
  assert (Hall : forall rel, is_skipped_dir (REPO_ROOT ++ rel) = true)
    by (intros rel; apply is_skipped_dir_app; exact Hroot).
  assert (Hbody : forall rel dirs filenames,
             scan_body unicode_alnum REPO_ROOT tree (REPO_ROOT ++ rel) dirs filenames
             = ([], []))
    by (intros; unfold scan_body; rewrite Hall; reflexivity).
  assert (H2 : phase2 unicode_alnum REPO_ROOT tree = []).
  { unfold phase2, os_walk; destruct (stat tree REPO_ROOT) as [e | n]; [reflexivity|].
    rewrite walk_node_pruned.
    - destruct n; try reflexivity.
      unfold scan_body; rewrite Hroot; reflexivity.
    - intros; unfold scan_body; rewrite Hroot; reflexivity. }
  assert (Hout : discover_files unicode_alnum REPO_ROOT tree
                 = dedup tree [] (phase1 REPO_ROOT tree))
    by (unfold discover_files; rewrite H2, app_nil_r; reflexivity).
  repeat split; auto.
  - rewrite Hout in H; apply dedup_In in H; tauto.
  - rewrite Hout in H; apply dedup_In in H; destruct H as [H _].
    apply phase1_spec in H; tauto.
Qed.

End Discovery.

(** ** What a pattern matches *)

Section RegexFacts.

Variable unicode_alnum : char -> bool.

Lemma eat_spec (l : str) :
  forall prev s prev' s',
    eat l prev s = Some (prev', s') <-> s = l ++ s' /\ prev' = prev_after prev l.
Proof.
  induction l as [|x l IH]; intros prev s prev' s'; simpl.
  - split; [intros H; injection H; auto | intros [-> ->]; reflexivity].
  - destruct s as [|y s].
    + split; [discriminate | intros [H _]; discriminate].
    + destruct (char_eqb x y) eqn:E.
      * apply char_eqb_eq in E; subst y; rewrite IH.
        split; [intros [-> ->]; auto | intros [H ->]; injection H; auto].
      * split; [discriminate|].
        intros [H _]; injection H; intros _ Hxy.
        apply not_true_iff_false in E; exfalso; apply E, char_eqb_eq; congruence.
Qed.

Lemma matches_lit_inv (l : str) (prev : option char) (s : str)
      (prev' : option char) (s' : str) :
  matches unicode_alnum (Lit l) prev s prev' s' -> eat l prev s = Some (prev', s').
Proof. intros H; inversion H; subst; apply eat_spec; auto. Qed.

Lemma rmatch_spec (r : regex) :
  forall prev s k,
    rmatch unicode_alnum r prev s k = true
    <-> exists prev' s', matches unicode_alnum r prev s prev' s' /\ k prev' s' = true.
Proof.
  induction r as [| l | | a IHa b IHb | a IHa b IHb]; intros prev s k; simpl.
  - split.
    + intros H; exists prev, s; split; [constructor | exact H].
    + intros (p' & s' & Hm & Hk); inversion Hm; subst; exact Hk.
  - destruct (eat l prev s) as [[p1 s1]|] eqn:E.
    + split.
      * intros H; exists p1, s1; split; [|exact H].
        apply eat_spec in E; destruct E as [-> ->]; constructor.
      * intros (p' & s' & Hm & Hk); apply matches_lit_inv in Hm.
        rewrite E in Hm; injection Hm; intros <- <-; exact Hk.
    + split; [discriminate|].
      intros (p' & s' & Hm & Hk); apply matches_lit_inv in Hm; congruence.
  - rewrite andb_true_iff; split.
    + intros [Hb Hk]; exists prev, s; split; [constructor; exact Hb | exact Hk].
    + intros (p' & s' & Hm & Hk); inversion Hm; subst; auto.
  - rewrite IHa; split.
    + intros (p1 & s1 & Ha & Hb); apply IHb in Hb.
      destruct Hb as (p2 & s2 & Hb & Hk).
      exists p2, s2; split; [econstructor; eassumption | exact Hk].
    + intros (p2 & s2 & Hm & Hk); inversion Hm; subst.
      eexists _, _; split; [eassumption|].
      apply IHb; eexists _, _; split; eassumption.
  - rewrite orb_true_iff, IHa, IHb; split.
    + intros [(p1 & s1 & Hm & Hk) | (p1 & s1 & Hm & Hk)];
        exists p1, s1; split; auto using matches_alt_l, matches_alt_r.
    + intros (p1 & s1 & Hm & Hk); inversion Hm; subst;
        [left | right]; eexists _, _; split; eassumption.
Qed.

Lemma search_from_spec (r : regex) (s : str) :
  forall prev,
    search_from unicode_alnum r prev s = true
    <-> exists pre rest prev' s',
          s = pre ++ rest /\ matches unicode_alnum r (prev_after prev pre) rest prev' s'.
Proof.
  induction s as [|c s IH]; intros prev; simpl;
    rewrite orb_true_iff, rmatch_spec.
  - split.
    + intros [(p' & s' & Hm & _) | H]; [|discriminate].
      exists [], [], p', s'; auto.
    + intros (pre & rest & p' & s' & E & Hm).
      symmetry in E; apply app_eq_nil in E; destruct E as [-> ->].
      left; exists p', s'; auto.
  - rewrite IH; split.
    + intros [(p' & s' & Hm & _) | (pre & rest & p' & s' & -> & Hm)].
      * exists [], (c :: s), p', s'; auto.
      * exists (c :: pre), rest, p', s'; auto.
    + intros (pre & rest & p' & s' & E & Hm).
      destruct pre as [|c' pre]; simpl in *.
      * subst rest; left; exists p', s'; auto.
      * injection E; intros -> <-; right.
        exists pre, rest, p', s'; auto.
Qed.

Lemma search_spec (r : regex) (text : str) :
  search unicode_alnum r text = true <-> occurs unicode_alnum r text.
Proof. apply search_from_spec. Qed.

End RegexFacts.

(** ** Content matching *)

Section Matching.

Variable stat_refused : path -> option errno.
Variable unicode_alnum : char -> bool.
Variable tree : node.

(** C4 (amended): the [is_file] test of [file_matches] is outside its
    [try]: when [os.stat] fails on the path with an error that [pathlib]
    does not ignore, [is_file] raises [OSError] and [file_matches] raises
    with it.  On every other path [is_file] answers, and [file_matches]
    answers false for a path that is not a regular file, for an extension
    outside [CODE_EXTS] and for a file whose reading raises (that
    exception goes no further); for a readable regular file with a listed
    extension it answers true exactly when some pattern of [PATTERNS]
    matches somewhere in the decoded text. *)
Theorem file_matches_unless_stat_raises (p : path) :
  (forall e,
      Raising.os_stat stat_refused tree p = inl e ->
      Raising.ignored_errno e = false ->
      Raising.is_file stat_refused tree p = Raise (OSError e p)
      /\ Raising.file_matches stat_refused unicode_alnum tree p = Raise (OSError e p))
  /\ (Raising.is_file stat_refused tree p = Ok true
      \/ Raising.is_file stat_refused tree p = Ok false
      \/ exists e, Raising.os_stat stat_refused tree p = inl e
                   /\ Raising.ignored_errno e = false)
  /\ (Raising.is_file stat_refused tree p = Ok false ->
      Raising.file_matches stat_refused unicode_alnum tree p = Ok false)
  /\ (Raising.is_file stat_refused tree p = Ok true ->
      in_CODE_EXTS (suffix p) = false ->
      Raising.file_matches stat_refused unicode_alnum tree p = Ok false)
  /\ (forall e,
        Raising.is_file stat_refused tree p = Ok true ->
        read_text tree p = inr e ->
        Raising.file_matches stat_refused unicode_alnum tree p = Ok false)
  /\ (forall text,
        Raising.is_file stat_refused tree p = Ok true ->
        in_CODE_EXTS (suffix p) = true ->
        read_text tree p = inl text ->
        exists b,
          Raising.file_matches stat_refused unicode_alnum tree p = Ok b
          /\ (b = true <-> exists rx, In rx PATTERNS /\ occurs unicode_alnum rx text)).
Proof.
  unfold Raising.file_matches, Raising.is_file.
  split; [|split; [|split; [|split; [|split]]]].
  - intros e -> ->; split; reflexivity.
  - destruct (Raising.os_stat stat_refused tree p) as [e | [c | es | t]]; auto.
    destruct (Raising.ignored_errno e) eqn:E; eauto.
  - intros ->; reflexivity.
  - intros -> ->; reflexivity.
  - intros e -> ->; destruct (in_CODE_EXTS (suffix p)); reflexivity.
  - intros text -> -> ->; cbn [negb]; eexists; split; [reflexivity|].
    unfold COMPILED; rewrite existsb_exists.
    split; intros (rx & Hin & Hs); exists rx; (split; [exact Hin|]);
      apply search_spec; exact Hs.
Qed.

End Matching.

(** ** Lists of lines *)

Lemma enumerate_length {A : Type} (xs : list A) :
  forall start, length (enumerate start xs) = length xs.
Proof. induction xs as [|x xs IH]; intros start; simpl; [|rewrite IH]; reflexivity. Qed.

Lemma enumerate_nth_error {A : Type} (xs : list A) :
  forall start i x,
    nth_error xs i = Some x -> nth_error (enumerate start xs) i = Some (start + i, x).
Proof.
  induction xs as [|y xs IH]; intros start [|i] x; simpl; try discriminate.
  - intros H; injection H; intros ->; rewrite Nat.add_0_r; reflexivity.
  - intros H; rewrite (IH (S start) i x H); do 2 f_equal; lia.
Qed.

Lemma combine_nth_error {A B : Type} (xs : list A) :
  forall (ys : list B) i x y,
    nth_error xs i = Some x -> nth_error ys i = Some y ->
    nth_error (combine xs ys) i = Some (x, y).
Proof.
  induction xs as [|a xs IH]; intros [|b ys] [|i] x y; simpl; try discriminate.
  - intros H1 H2; injection H1; injection H2; intros -> ->; reflexivity.
  - apply IH.
Qed.

Lemma flat_map_chunks_length {A B : Type} (f : A -> list B) (k : nat) (xs : list A) :
  (forall x, length (f x) = k) -> length (flat_map f xs) = k * length xs.
Proof.
  intros Hk; induction xs as [|x xs IH]; simpl; [lia|].
  rewrite length_app, Hk, IH; lia.
Qed.

Lemma flat_map_chunks_nth_error {A B : Type} (f : A -> list B) (k : nat) (xs : list A) :
  (forall x, length (f x) = k) ->
  forall i j x, nth_error xs i = Some x -> j < k ->
    nth_error (flat_map f xs) (k * i + j) = nth_error (f x) j.
Proof.
  intros Hk; induction xs as [|y xs IH]; intros [|i] j x; simpl; try discriminate.
  - intros H Hj; injection H; intros ->.
    rewrite Nat.mul_0_r; simpl; apply nth_error_app1; rewrite Hk; exact Hj.
  - intros H Hj; rewrite nth_error_app2; rewrite Hk; [|lia].
    replace (k * S i + j - k) with (k * i + j) by lia.
    apply IH; assumption.
Qed.

Lemma join_cons (sep x y : str) (rest : list str) :
  join sep (x :: y :: rest) = x ++ sep ++ join sep (y :: rest).
Proof. reflexivity. Qed.

Lemma nth_error_app_plus {A : Type} (a b : list A) (i : nat) :
  nth_error (a ++ b) (length a + i) = nth_error b i.
Proof.
  rewrite nth_error_app2 by lia; f_equal; lia.
Qed.

(** ** The bundle *)

Section Bundle.

Variable exn_str : exn -> str.
Variable REPO_ROOT : path.

Lemma header_length (ts : str) : length (header REPO_ROOT ts) = 7.
Proof. reflexivity. Qed.

Lemma file_section_length (tree : node) (i : nat) (rp p : path) :
  length (file_section exn_str tree i rp p) = 9.
Proof. unfold file_section; destruct (code_block exn_str tree p); reflexivity. Qed.

Section Lines.

Variable tree : node.
Variable ts : str.
Variables rel_paths files : list path.
Hypothesis same_length : length rel_paths = length files.

Let lines := bundle_lines exn_str REPO_ROOT tree ts rel_paths files.

Lemma bundle_lines_length : length lines = 9 + 10 * length files.
Proof.
  unfold lines, bundle_lines.
  rewrite !length_app, header_length, length_map, enumerate_length.
  rewrite flat_map_chunks_length with (k := 9)
    by (intros; apply file_section_length).
  rewrite enumerate_length, length_combine, same_length, Nat.min_id.
  simpl; lia.
Qed.

Lemma bundle_lines_title : nth_error lines 7 = Some (lit "## Table of Contents").
Proof. reflexivity. Qed.

Lemma bundle_lines_toc (i : nat) (rp : path) :
  nth_error rel_paths i = Some rp ->
  nth_error lines (8 + i) = Some (toc_entry (S i) rp).
Proof.
  intros Hrp; unfold lines, bundle_lines.
  replace (8 + i) with (length (header REPO_ROOT ts) + (1 + i))
    by (rewrite header_length; lia).
  rewrite nth_error_app_plus.
  change (1 + i) with (length [lit "## Table of Contents"] + i).
  rewrite nth_error_app_plus, nth_error_app1.
  - rewrite map_nth_error with (d := (S i, rp)); [reflexivity|].
    apply (enumerate_nth_error _ 1); exact Hrp.
  - rewrite length_map, enumerate_length.
    apply nth_error_Some; congruence.
Qed.

Lemma bundle_lines_after_toc : nth_error lines (8 + length files) = Some [].
Proof.
  unfold lines, bundle_lines.
  replace (8 + length files)
    with (length (header REPO_ROOT ts) + (1 + length files))
    by (rewrite header_length; lia).
  rewrite nth_error_app_plus.
  change (1 + length files)
    with (length [lit "## Table of Contents"] + length files).
  rewrite nth_error_app_plus.
  replace (length files)
    with (length (map (fun irp => toc_entry (fst irp) (snd irp))
                      (enumerate 1 rel_paths)) + 0)
    by (rewrite length_map, enumerate_length; lia).
  rewrite nth_error_app_plus; reflexivity.
Qed.

Lemma bundle_lines_section (i j : nat) (rp p : path) :
  nth_error rel_paths i = Some rp -> nth_error files i = Some p -> j < 9 ->
  nth_error lines (length files + 9 + 9 * i + j)
  = nth_error (file_section exn_str tree (S i) rp p) j.
Proof.
  intros Hrp Hp Hj; unfold lines, bundle_lines.
  replace (length files + 9 + 9 * i + j)
    with (length (header REPO_ROOT ts) + (1 + (length files + (1 + (9 * i + j)))))
    by (rewrite header_length; lia).
  rewrite nth_error_app_plus.
  change (1 + (length files + (1 + (9 * i + j))))
    with (length [lit "## Table of Contents"] + (length files + (1 + (9 * i + j)))).
  rewrite nth_error_app_plus.
  replace (length files + (1 + (9 * i + j)))
    with (length (map (fun irp => toc_entry (fst irp) (snd irp))
                      (enumerate 1 rel_paths)) + (1 + (9 * i + j)))
    by (rewrite length_map, enumerate_length; lia).
  rewrite nth_error_app_plus.
  change (1 + (9 * i + j)) with (length [@nil char] + (9 * i + j)).
  rewrite nth_error_app_plus.
  rewrite flat_map_chunks_nth_error with (k := 9) (x := (S i, (rp, p)));
    [reflexivity | intros; apply file_section_length | | exact Hj].
  apply (enumerate_nth_error _ 1), combine_nth_error; assumption.
Qed.

End Lines.

End Bundle.

(** ** The timestamp *)

Lemma lit_digits_no_newline (u : Decimal.uint) :
  no_newline (lit (NilEmpty.string_of_uint u)).
Proof.
  unfold no_newline; induction u; cbn; constructor; try discriminate; assumption.
Qed.

Lemma zfill_no_newline (width n : nat) : no_newline (zfill width (str_of_nat n)).
Proof.
  unfold zfill, no_newline; apply Forall_app; split.
  - apply Forall_forall; intros c Hc; apply repeat_spec in Hc; subst; discriminate.
  - apply lit_digits_no_newline.
Qed.

Lemma isoformat_no_newline (t : datetime) : no_newline (isoformat t).
Proof.
  unfold isoformat, no_newline.
  fold (no_newline (zfill 2 (str_of_nat (second t)))).
  repeat first [apply zfill_no_newline | apply Forall_app; split];
    cbn; constructor; try discriminate; constructor.
Qed.

(** ** Running the program *)

Section Run.

Variable unicode_alnum : char -> bool.
Variable exn_str : exn -> str.
Variable REPO_ROOT : path.

Let below_root (p rp : path) : Prop := relative_to p REPO_ROOT = Some rp.

Lemma mapM_cons {A B : Type} (f : A -> M B) (x : A) (xs : list A) (st : state) :
  mapM f (x :: xs) st
  = match f x st with
    | (Ok y, st') =>
        match mapM f xs st' with
        | (Ok ys, st'') => (Ok (y :: ys), st'')
        | (Raise e, st'') => (Raise e, st'')
        end
    | (Raise e, st') => (Raise e, st')
    end.
Proof.
  simpl; unfold bind; destruct (f x st) as [[y | e] st']; [|reflexivity].
  destruct (mapM f xs st') as [[ys | e] st'']; reflexivity.
Qed.

Lemma relative_to_root_Some (p rp : path) (st : state) :
  relative_to p REPO_ROOT = Some rp -> relative_to_root REPO_ROOT p st = (Ok rp, st).
Proof. unfold relative_to_root; intros ->; reflexivity. Qed.

Lemma relative_to_root_None (p : path) (st : state) :
  relative_to p REPO_ROOT = None ->
  relative_to_root REPO_ROOT p st = (Raise (ValueError p REPO_ROOT), st).
Proof. unfold relative_to_root; intros ->; reflexivity. Qed.

Lemma mapM_relative_to_root (files : list path) (st : state) :
  (exists rel_paths,
      Forall2 below_root files rel_paths
      /\ mapM (relative_to_root REPO_ROOT) files st = (Ok rel_paths, st))
  \/ (exists p,
         In p files /\ relative_to p REPO_ROOT = None
         /\ mapM (relative_to_root REPO_ROOT) files st
            = (Raise (ValueError p REPO_ROOT), st)).
Proof.
  induction files as [|p files IH].
  - left; exists []; split; [constructor | reflexivity].
  - rewrite mapM_cons.
    destruct (relative_to p REPO_ROOT) as [rp|] eqn:Hp.
    + rewrite relative_to_root_Some with (rp := rp) by exact Hp.
      destruct IH as [(rps & HF & ->) | (q & Hq & Hn & ->)].
      * left; exists (rp :: rps); split; [constructor; assumption | reflexivity].
      * right; exists q; simpl; auto.
    + rewrite relative_to_root_None by exact Hp.
      right; exists p; simpl; auto.
Qed.

Lemma mapM_relative_to_root_ok (files rel_paths : list path) (st : state) :
  Forall2 below_root files rel_paths ->
  mapM (relative_to_root REPO_ROOT) files st = (Ok rel_paths, st).
Proof.
  induction 1 as [|p rp files rps Hp _ IH]; [reflexivity|].
  rewrite mapM_cons, relative_to_root_Some with (rp := rp) by exact Hp.
  rewrite IH; reflexivity.
Qed.

Lemma write_bundle_ok (files rel_paths : list path) (st : state) :
  Forall2 below_root files rel_paths ->
  write_bundle exn_str REPO_ROOT files st
  = do_write_text (OUTPUT_PATH REPO_ROOT)
      (join newline
         (bundle_lines exn_str REPO_ROOT (fs st) (isoformat (clock st))
            rel_paths files)) st.
Proof.
  intros HF; unfold write_bundle, bind.
  rewrite (mapM_relative_to_root_ok st HF); reflexivity.
Qed.

Lemma write_bundle_raises (files : list path) (st : state) (p : path) :
  mapM (relative_to_root REPO_ROOT) files st = (Raise (ValueError p REPO_ROOT), st) ->
  write_bundle exn_str REPO_ROOT files st = (Raise (ValueError p REPO_ROOT), st).
Proof. intros H; unfold write_bundle, bind; rewrite H; reflexivity. Qed.

Lemma Forall2_nth_error_r {A B : Type} (R : A -> B -> Prop) (xs : list A) (ys : list B) :
  Forall2 R xs ys ->
  forall i y, nth_error ys i = Some y -> exists x, nth_error xs i = Some x /\ R x y.
Proof.
  induction 1 as [|x y0 xs ys Hxy _ IH]; intros [|i] y; simpl; try discriminate.
  - intros H; injection H; intros <-; exists x; auto.
  - apply IH.
Qed.

Lemma Forall2_nth_error_l {A B : Type} (R : A -> B -> Prop) (xs : list A) (ys : list B) :
  Forall2 R xs ys ->
  forall i x, nth_error xs i = Some x -> exists y, nth_error ys i = Some y /\ R x y.
Proof.
  induction 1 as [|x0 y xs ys Hxy _ IH]; intros [|i] x; simpl; try discriminate.
  - intros H; injection H; intros <-; exists y; auto.
  - apply IH.
Qed.

(** C5: when some path of the list is not below the repository root,
    [write_bundle] raises before it renders anything; otherwise the lines
    it renders and writes hold, after the title of the table of contents,
    one entry per file in list order and then a blank line, and for the
    [i]-th file (counted from 1) a section further down whose heading
    shows the relative path of the entry and whose anchor has the id
    [file-i], the sections following one another in the order of the
    entries.  The three lines are spelt out: the relative path is printed
    with ["/"] between its components, the index in decimal, and [34] is
    the code point of the double quote. *)
Theorem toc_entries_have_sections (files : list path) (st : state) :
  (exists p,
      In p files /\ relative_to p REPO_ROOT = None
      /\ write_bundle exn_str REPO_ROOT files st
         = (Raise (ValueError p REPO_ROOT), st))
  \/ (exists rel_paths lines,
         Forall2 (fun p rp => relative_to p REPO_ROOT = Some rp) files rel_paths
         /\ write_bundle exn_str REPO_ROOT files st
            = do_write_text (OUTPUT_PATH REPO_ROOT) (join newline lines) st
         /\ length lines = 9 + 10 * length files
         /\ nth_error lines 7 = Some (lit "## Table of Contents")
         /\ nth_error lines (8 + length files) = Some []
         /\ forall i rp,
              nth_error rel_paths i = Some rp ->
              let shown := match rp with
                           | [] => lit "."
                           | _ :: _ => join (lit "/") rp
                           end in
              let index := lit (NilEmpty.string_of_uint (Nat.to_uint (S i))) in
              nth_error lines (8 + i)
              = Some (lit "- [" ++ shown ++ lit "] (#file-" ++ index ++ lit ")")
              /\ nth_error lines (length files + 11 + 9 * i)
                 = Some (lit "## " ++ shown)
              /\ nth_error lines (length files + 12 + 9 * i)
                 = Some (lit "<a id=" ++ [34%N] ++ lit "file-" ++ index
                         ++ [34%N] ++ lit "></a>")).
Proof.
  destruct (mapM_relative_to_root files st) as [(rps & HF & _) | (p & Hin & Hn & Hm)].
  - right; exists rps, (bundle_lines exn_str REPO_ROOT (fs st) (isoformat (clock st)) rps files).
    assert (Hlen : length rps = length files) by (symmetry; exact (Forall2_length HF)).
    split; [exact HF|].
    split; [apply write_bundle_ok; exact HF|].
    split; [apply bundle_lines_length; exact Hlen|].
    split; [apply bundle_lines_title|].
    split; [apply bundle_lines_after_toc; exact Hlen|].
    intros i rp Hrp; cbv zeta.
    destruct (Forall2_nth_error_r HF _ Hrp) as (p & Hp & _).
    split; [change (nth_error (bundle_lines exn_str REPO_ROOT (fs st)
                                 (isoformat (clock st)) rps files) (8 + i)
                    = Some (toc_entry (S i) rp));
            apply bundle_lines_toc; assumption|].
    replace (length files + 11 + 9 * i) with (length files + 9 + 9 * i + 2) by lia.
    replace (length files + 12 + 9 * i) with (length files + 9 + 9 * i + 3) by lia.
    rewrite !(bundle_lines_section exn_str REPO_ROOT (fs st) (isoformat (clock st))
                rps files Hlen i Hrp Hp) by lia.
    unfold file_section; destruct (code_block exn_str (fs st) p); split; reflexivity.
  - left; exists p; split; [exact Hin|]; split; [exact Hn|].
    apply write_bundle_raises; exact Hm.
Qed.

(** C8: in the lines that [write_bundle] renders and writes, a file whose
    reading raises gets a code block opened by a bare fence (empty
    language tag) that holds the placeholder built from the exception's
    description in place of content; a file read successfully gets its
    text and the label of its extension, [rust] for [.rs], [toml] for
    [.toml], [ron] for [.ron] and none for any other; every file of the
    list, before or after an unreadable one, has its complete section. *)
Theorem unreadable_file_gets_placeholder
        (files rel_paths : list path) (st : state) :
  Forall2 (fun p rp => relative_to p REPO_ROOT = Some rp) files rel_paths ->
  exists lines,
    write_bundle exn_str REPO_ROOT files st
    = do_write_text (OUTPUT_PATH REPO_ROOT) (join newline lines) st
    /\ length lines = 9 + 10 * length files
    /\ forall i p,
         nth_error files i = Some p ->
         nth_error lines (length files + 9 + 9 * i) = Some (lit "---")
         /\ match read_text (fs st) p with
            | inr e =>
                nth_error lines (length files + 14 + 9 * i) = Some (lit "```")
                /\ nth_error lines (length files + 15 + 9 * i)
                   = Some (lit "<Error reading file: " ++ exn_str e ++ lit ">")
            | inl text =>
                (suffix p = lit ".rs" ->
                 nth_error lines (length files + 14 + 9 * i) = Some (lit "```rust"))
                /\ (suffix p = lit ".toml" ->
                    nth_error lines (length files + 14 + 9 * i) = Some (lit "```toml"))
                /\ (suffix p = lit ".ron" ->
                    nth_error lines (length files + 14 + 9 * i) = Some (lit "```ron"))
                /\ (suffix p <> lit ".rs" -> suffix p <> lit ".toml" ->
                    suffix p <> lit ".ron" ->
                    nth_error lines (length files + 14 + 9 * i) = Some (lit "```"))
                /\ nth_error lines (length files + 15 + 9 * i) = Some text
            end
         /\ nth_error lines (length files + 16 + 9 * i) = Some (lit "```").
Proof.
  intros HF.
  exists (bundle_lines exn_str REPO_ROOT (fs st) (isoformat (clock st)) rel_paths files).
  assert (Hlen : length rel_paths = length files) by (symmetry; exact (Forall2_length HF)).
  split; [apply write_bundle_ok; exact HF|].
  split; [apply bundle_lines_length; exact Hlen|].
  intros i p Hp.
  destruct (Forall2_nth_error_l HF _ Hp) as (rp & Hrp & _).
  replace (length files + 9 + 9 * i) with (length files + 9 + 9 * i + 0) by lia.
  replace (length files + 14 + 9 * i) with (length files + 9 + 9 * i + 5) by lia.
  replace (length files + 15 + 9 * i) with (length files + 9 + 9 * i + 6) by lia.
  replace (length files + 16 + 9 * i) with (length files + 9 + 9 * i + 7) by lia.
  rewrite !(bundle_lines_section exn_str REPO_ROOT (fs st) (isoformat (clock st))
              rel_paths files Hlen i Hrp Hp) by lia.
  unfold file_section, code_block.
  destruct (read_text (fs st) p) as [text | e]; cbn [nth_error];
    [|repeat split; reflexivity].
  split; [reflexivity|]; split; [|reflexivity].
  unfold language_for, CODE_EXTS_get.
  split; [intros ->; reflexivity|].
  split; [intros ->; reflexivity|].
  split; [intros ->; reflexivity|].
  split; [|reflexivity].
  intros H1 H2 H3; unfold CODE_EXTS; cbn [find fst snd].
  destruct (str_eqb (suffix p) (lit ".rs")) eqn:E1;
    [apply str_eqb_eq in E1; contradiction|].
  destruct (str_eqb (suffix p) (lit ".toml")) eqn:E2;
    [apply str_eqb_eq in E2; contradiction|].
  destruct (str_eqb (suffix p) (lit ".ron")) eqn:E3;
    [apply str_eqb_eq in E3; contradiction|].
  reflexivity.
Qed.

Lemma discovered_below_root (tree : node) :
  let files := discover_files unicode_alnum REPO_ROOT tree in
  Forall2 below_root files (map (skipn (length REPO_ROOT)) files).
Proof.
  cbv zeta.
  assert (H : forall p, In p (discover_files unicode_alnum REPO_ROOT tree) ->
                        under REPO_ROOT p)
    by (intros p Hp; apply (found_under_root unicode_alnum REPO_ROOT tree),
                       discover_files_In; exact Hp).
  induction (discover_files unicode_alnum REPO_ROOT tree) as [|p files IH];
    simpl; constructor.
  - destruct (H p (or_introl eq_refl)) as [rel ->].
    unfold below_root; rewrite relative_to_app, skipn_app, skipn_all, Nat.sub_diag.
    reflexivity.
  - apply IH; intros q Hq; apply H; right; exact Hq.
Qed.

Lemma main_eval (argv : list str) (st : state) :
  main unicode_alnum exn_str REPO_ROOT argv st
  = match discover_files unicode_alnum REPO_ROOT (fs st) with
    | [] => (Ok 1%Z, log (Printed (lit "No lighting-related files found.")) st)
    | p :: rest =>
        match write_bundle exn_str REPO_ROOT (p :: rest) st with
        | (Ok _, st') =>
            (Ok 0%Z,
             log (Printed (lit "Wrote " ++ str_of_nat (length (p :: rest))
                         ++ lit " files to " ++ str_of_path (OUTPUT_PATH REPO_ROOT)))
                 st')
        | (Raise e, st') => (Raise e, st')
        end
    end.
Proof.
  unfold main, bind, gets.
  destruct (discover_files unicode_alnum REPO_ROOT (fs st)) as [|p rest];
    [reflexivity|].
  destruct (write_bundle exn_str REPO_ROOT (p :: rest) st) as [[[] | e] st'];
    reflexivity.
Qed.


(** C7: when discovery yields nothing, [main] prints its message and
    returns 1 without calling [write_text]: the trace gains the printed
    line only, and the file system, the output file included, is what it
    was. *)
Theorem nothing_found_writes_nothing (argv : list str) (st : state) :
  discover_files unicode_alnum REPO_ROOT (fs st) = [] ->
  main unicode_alnum exn_str REPO_ROOT argv st
  = (Ok 1%Z, log (Printed (lit "No lighting-related files found.")) st)
  /\ trace (snd (main unicode_alnum exn_str REPO_ROOT argv st))
     = trace st ++ [Printed (lit "No lighting-related files found.")]
  /\ writes (trace (snd (main unicode_alnum exn_str REPO_ROOT argv st)))
     = writes (trace st)
  /\ fs (snd (main unicode_alnum exn_str REPO_ROOT argv st)) = fs st
  /\ lookup (fs (snd (main unicode_alnum exn_str REPO_ROOT argv st)))
       (OUTPUT_PATH REPO_ROOT)
     = lookup (fs st) (OUTPUT_PATH REPO_ROOT).
Proof.
  intros Hnone; rewrite main_eval, Hnone; simpl.
  repeat split.
  unfold writes; rewrite flat_map_app; simpl; apply app_nil_r.
Qed.

Lemma bundle_doc_split (tree : node) (rel_paths files : list path) :
  exists post, forall ts,
    join newline (bundle_lines exn_str REPO_ROOT tree ts rel_paths files)
    = lit "# Lighting Code Bundle" ++ newline ++ newline
      ++ lit "Generated: " ++ ts ++ newline ++ post.
Proof.
  eexists; intros ts; unfold bundle_lines, header.
  cbn [app]; rewrite !join_cons; cbn [app].
  rewrite <- !app_assoc; reflexivity.
Qed.

Lemma writes_snoc_print (tr : list event) (s : str) :
  writes (tr ++ [Printed s]) = writes tr.
Proof. unfold writes; rewrite flat_map_app; simpl; apply app_nil_r. Qed.

Lemma writes_snoc_write (tr : list event) (p : path) (d : str) :
  writes (tr ++ [WriteText p d]) = writes tr ++ [(p, d)].
Proof. unfold writes; rewrite flat_map_app; reflexivity. Qed.

(** C9: the document a run hands to [write_text] is fixed by the file
    tree and the timestamp: over one tree, whatever the clock shows, it is
    one and the same text before and one and the same text after the line
    ["Generated: <timestamp>"], and that line is a single line.  Two runs
    over the same tree therefore write documents that are equal except
    for that line. *)
Theorem bundle_fixed_by_tree_and_timestamp (tree : node) (argv : list str) :
  exists post,
    forall (t : datetime) (tr : list event),
      writes (trace (snd (main unicode_alnum exn_str REPO_ROOT argv
                            {| fs := tree; clock := t; trace := tr |})))
      = writes tr
        ++ match discover_files unicode_alnum REPO_ROOT tree with
           | [] => []
           | _ :: _ =>
               [(OUTPUT_PATH REPO_ROOT,
                 lit "# Lighting Code Bundle" ++ newline ++ newline
                 ++ lit "Generated: " ++ isoformat t ++ newline ++ post)]
           end
      /\ no_newline (lit "Generated: " ++ isoformat t).
Proof.
  pose proof (discovered_below_root tree) as HF; cbv zeta in HF.
  destruct (bundle_doc_split tree
              (map (skipn (length REPO_ROOT)) (discover_files unicode_alnum REPO_ROOT tree))
              (discover_files unicode_alnum REPO_ROOT tree))
    as [post Hpost].
  exists post; intros t tr; split.
  - rewrite main_eval; cbn [fs].
    destruct (discover_files unicode_alnum REPO_ROOT tree) as [|p rest].
    + cbn [snd log trace]; rewrite writes_snoc_print, app_nil_r; reflexivity.
    + rewrite (write_bundle_ok {| fs := tree; clock := t; trace := tr |} HF).
      unfold do_write_text; cbn [fs clock trace log]; rewrite Hpost.
      destruct (write_text tree (OUTPUT_PATH REPO_ROOT) _) as [e | tree'];
        cbn [snd log trace].
      * apply writes_snoc_write.
      * rewrite writes_snoc_print; apply writes_snoc_write.
  - unfold no_newline; apply Forall_app; split; [|apply isoformat_no_newline].
    cbn; repeat (constructor; [discriminate|]); constructor.
Qed.

End Run.

(** ** Runs in which a call may be refused *)

Lemma filter_r_In {A : Type} (f : A -> result bool) (l : list A) :
  forall r, Raising.filter_r f l = Ok r ->
    forall x, In x r -> In x l /\ f x = Ok true.
Proof.
  induction l as [|y l IH]; intros r; simpl.
  - intros H; injection H; intros <-; contradiction.
  - destruct (f y) as [b | e] eqn:Hy; [|discriminate].
    destruct (Raising.filter_r f l) as [r' | e]; [|discriminate].
    intros H; injection H; intros <-; intros x Hx.
    destruct b.
    + destruct Hx as [<- | Hx]; [auto|].
      destruct (IH _ eq_refl _ Hx); auto.
    + destruct (IH _ eq_refl _ Hx); auto.
Qed.

Section RaisingWalk.

Variable A : Type.
Variable tree : node.
Variable body : path -> list str -> list str -> result (list str * list A).

Lemma walk_node_returns_collected (n : node) :
  forall top l, Raising.walk_node tree body top n = Ok l ->
    forall x, In x l ->
      exists d dirs nondirs dirs' out,
        under top d /\ body d dirs nondirs = Ok (dirs', out) /\ In x out.
Proof.
  induction n as [content | es IH | target] using node_tree_ind;
    intros top l; simpl;
    try (intros H; injection H; intros <-; contradiction).
  destruct (body top _ _) as [[dirs' out] | e] eqn:Hbody; [|discriminate].
  match goal with
  | |- match ?g es with _ => _ end = _ -> _ => set (go := g)
  end.
  destruct (go es) as [below | e] eqn:Hgo; [|discriminate].
  intros H; injection H; intros <-; intros x Hx.
  apply in_app_iff in Hx; destruct Hx as [Hx | Hx].
  - eexists top, _, _, dirs', out; split; [apply under_refl | split; eassumption].
  - clear Hbody H.
    revert below Hgo Hx; induction IH as [|e es He _ IHes]; intros below; simpl.
    + intros H; injection H; intros <-; contradiction.
    + destruct (str_in (fst e) dirs').
      * destruct (snd e) as [c | es' | t] eqn:Hsnd.
        -- destruct (go es) as [rest | x0]; [|discriminate].
           intros H; injection H; intros <-; apply (IHes _ eq_refl).
        -- destruct (Raising.walk_node tree body (top ++ [fst e]) (Dir es'))
             as [here | x0] eqn:Hhere; [|discriminate].
           destruct (go es) as [rest | x0]; [|discriminate].
           intros H; injection H; intros <-; intros Hx.
           apply in_app_iff in Hx; destruct Hx as [Hx | Hx]; [|exact (IHes _ eq_refl Hx)].
           destruct (He _ _ Hhere _ Hx) as (d & dirs & nondirs & dirs1 & out1 & Hd & Hb & Hin).
           exists d, dirs, nondirs, dirs1, out1; split; [|auto].
           apply under_trans with (top ++ [fst e]); [apply under_snoc | exact Hd].
        -- destruct (go es) as [rest | x0]; [|discriminate].
           intros H; injection H; intros <-; apply (IHes _ eq_refl).
      * destruct (go es) as [rest | x0]; [|discriminate].
        intros H; injection H; intros <-; apply (IHes _ eq_refl).
Qed.

Lemma os_walk_returns_collected (top : path) (l : list A) :
  Raising.os_walk tree body top = Ok l ->
  forall x, In x l ->
    exists d dirs nondirs dirs' out,
      under top d /\ body d dirs nondirs = Ok (dirs', out) /\ In x out.
Proof.
  unfold Raising.os_walk; destruct (stat tree top).
  - intros H; injection H; intros <-; contradiction.
  - apply walk_node_returns_collected.
Qed.

End RaisingWalk.

Section RaisingRun.

Variable stat_refused : path -> option errno.
Variable write_refused : path -> option errno.
Variable unicode_alnum : char -> bool.
Variable exn_str : exn -> str.
Variable REPO_ROOT : path.

(** What the first phase returns lies below the primary directory, passed
    [is_file] and has a listed extension. *)
Lemma raising_phase1_spec (tree : node) (found : list path) (p : path) :
  Raising.phase1 stat_refused REPO_ROOT tree = Ok found -> In p found ->
  under (lighting_crate REPO_ROOT) p
  /\ Raising.is_file stat_refused tree p = Ok true
  /\ in_CODE_EXTS (suffix p) = true.
Proof.
  unfold Raising.phase1.
  destruct (Raising.exists_ stat_refused tree (lighting_crate REPO_ROOT))
    as [[|] | e]; try discriminate.
  - intros H Hin; destruct (filter_r_In _ _ H _ Hin) as [Hg Hf].
    split; [exact (rglob_under _ _ _ Hg)|].
    destruct (Raising.is_file stat_refused tree p) as [b | e]; [|discriminate].
    injection Hf; intros Hb; apply andb_true_iff in Hb; destruct Hb as [-> ->]; auto.
  - intros H; injection H; intros <-; contradiction.
Qed.

(** What the second phase returns sits directly in a directory at or below
    the root and passed [file_matches]. *)
Lemma raising_phase2_spec (tree : node) (found : list path) (p : path) :
  Raising.phase2 stat_refused unicode_alnum REPO_ROOT tree = Ok found -> In p found ->
  exists d fname,
    p = d ++ [fname] /\ under REPO_ROOT d
    /\ is_skipped_dir d = false /\ in_lighting_crate REPO_ROOT d = false
    /\ in_CODE_EXTS (suffix p) = true
    /\ Raising.file_matches stat_refused unicode_alnum tree p = Ok true.
Proof.
  unfold Raising.phase2; intros H Hin.
  destruct (os_walk_returns_collected _ _ _ H _ Hin)
    as (d & dirs & nondirs & dirs' & out & Hd & Hb & Hout).
  unfold Raising.scan_body in Hb.
  destruct (is_skipped_dir d) eqn:Hskip;
    [injection Hb; intros <- _; contradiction|].
  destruct (in_lighting_crate REPO_ROOT d) eqn:Hcrate;
    [injection Hb; intros <- _; contradiction|].
  destruct (Raising.filter_r _ _) as [found' | e] eqn:Hf; [|discriminate].
  injection Hb; intros <- _.
  destruct (filter_r_In _ _ Hf _ Hout) as [Hm Ht].
  apply in_map_iff in Hm; destruct Hm as (fname & <- & _).
  exists d, fname.
  destruct (in_CODE_EXTS (suffix (d ++ [fname]))); [auto 10 | discriminate].
Qed.

Lemma raising_discovered_under_root (tree : node) (files : list path) (p : path) :
  Raising.discover_files stat_refused unicode_alnum REPO_ROOT tree = Ok files ->
  In p files -> under REPO_ROOT p.
Proof.
  unfold Raising.discover_files.
  destruct (Raising.phase1 stat_refused REPO_ROOT tree) as [found1 | e] eqn:H1;
    [|discriminate].
  destruct (Raising.phase2 stat_refused unicode_alnum REPO_ROOT tree)
    as [found2 | e] eqn:H2; [|discriminate].
  intros H; injection H; intros <-; intros Hin.
  apply dedup_In in Hin; destruct Hin as [Hin _].
  apply in_app_iff in Hin; destruct Hin as [Hin | Hin].
  - destruct (raising_phase1_spec _ _ H1 Hin) as [Hu _].
    apply under_trans with (lighting_crate REPO_ROOT); [eexists; reflexivity | exact Hu].
  - destruct (raising_phase2_spec _ _ H2 Hin) as (d & fname & -> & Hd & _).
    exact (under_trans Hd (under_snoc d fname)).
Qed.

Lemma relative_paths_below_root (files : list path) :
  (forall p, In p files -> under REPO_ROOT p) ->
  Forall2 (fun p rp => relative_to p REPO_ROOT = Some rp)
          files (map (skipn (length REPO_ROOT)) files).
Proof.
  induction files as [|p files IH]; intros H; simpl; constructor.
  - destruct (H p (or_introl eq_refl)) as [rel ->].
    rewrite relative_to_app, skipn_app, skipn_all, Nat.sub_diag; reflexivity.
  - apply IH; intros q Hq; apply H; right; exact Hq.
Qed.

Lemma raising_write_bundle_ok (files rel_paths : list path) (st : state) :
  Forall2 (fun p rp => relative_to p REPO_ROOT = Some rp) files rel_paths ->
  Raising.write_bundle write_refused exn_str REPO_ROOT files st
  = Raising.do_write_text write_refused (OUTPUT_PATH REPO_ROOT)
      (join newline
         (bundle_lines exn_str REPO_ROOT (fs st) (isoformat (clock st))
            rel_paths files)) st.
Proof.
  intros HF; unfold Raising.write_bundle, bind.
  rewrite (@mapM_relative_to_root_ok REPO_ROOT files rel_paths st HF); reflexivity.
Qed.

Lemma raising_main_eval (argv : list str) (st : state) :
  Raising.main stat_refused write_refused unicode_alnum exn_str REPO_ROOT argv st
  = match Raising.discover_files stat_refused unicode_alnum REPO_ROOT (fs st) with
    | Raise e => (Raise e, st)
    | Ok [] => (Ok 1%Z, log (Printed (lit "No lighting-related files found.")) st)
    | Ok (p :: rest) =>
        match Raising.write_bundle write_refused exn_str REPO_ROOT (p :: rest) st with
        | (Ok _, st') =>
            (Ok 0%Z,
             log (Printed (lit "Wrote " ++ str_of_nat (length (p :: rest))
                         ++ lit " files to " ++ str_of_path (OUTPUT_PATH REPO_ROOT)))
                 st')
        | (Raise e, st') => (Raise e, st')
        end
    end.
Proof.
  unfold Raising.main, bind.
  destruct (Raising.discover_files stat_refused unicode_alnum REPO_ROOT (fs st))
    as [[|p rest] | e]; reflexivity.
Qed.

(** One run, by the outcome of discovery and of the write. *)
Lemma raising_main_run (argv : list str) (st : state) :
  Raising.main stat_refused write_refused unicode_alnum exn_str REPO_ROOT argv st
  = match Raising.discover_files stat_refused unicode_alnum REPO_ROOT (fs st) with
    | Raise e => (Raise e, st)
    | Ok [] => (Ok 1%Z, log (Printed (lit "No lighting-related files found.")) st)
    | Ok (p :: rest) =>
        let files := p :: rest in
        let doc :=
          join newline
            (bundle_lines exn_str REPO_ROOT (fs st) (isoformat (clock st))
               (map (skipn (length REPO_ROOT)) files) files) in
        match Raising.write_text write_refused (fs st) (OUTPUT_PATH REPO_ROOT) doc with
        | inr tree' =>
            (Ok 0%Z,
             log (Printed (lit "Wrote " ++ str_of_nat (length files)
                         ++ lit " files to " ++ str_of_path (OUTPUT_PATH REPO_ROOT)))
                 {| fs := tree'; clock := clock st;
                    trace := trace st ++ [WriteText (OUTPUT_PATH REPO_ROOT) doc] |})
        | inl e => (Raise e, log (WriteText (OUTPUT_PATH REPO_ROOT) doc) st)
        end
    end.
Proof.
  rewrite raising_main_eval.
  destruct (Raising.discover_files stat_refused unicode_alnum REPO_ROOT (fs st))
    as [[|p rest] | e] eqn:Hd; try reflexivity.
  cbv zeta.
  assert (HF : Forall2 (fun q rp => relative_to q REPO_ROOT = Some rp) (p :: rest)
                 (map (skipn (length REPO_ROOT)) (p :: rest))).
  { apply relative_paths_below_root; intros q Hq.
    exact (@raising_discovered_under_root (fs st) (p :: rest) q Hd Hq). }
  rewrite (@raising_write_bundle_ok (p :: rest) _ st HF).
  unfold Raising.do_write_text.
  destruct (Raising.write_text write_refused (fs st) (OUTPUT_PATH REPO_ROOT) _);
    reflexivity.
Qed.

(** C6: [main] returns 1 after printing the "no files found" message when
    discovery returns an empty list; when discovery returns files and the
    [write_text] call of [write_bundle] goes through, it has written the
    bundle, prints the message with the file count and the output path,
    and returns 0.  [main] returns in no other way: a run that returns,
    returns 1 after an empty discovery or 0 after a write that went
    through.  A run that does not return ends in an exception that
    [discover_files] or that [write_text] call raised; [main] raises none
    of its own. *)
Theorem main_returns_one_or_zero (argv : list str) (st : state) :
  (Raising.discover_files stat_refused unicode_alnum REPO_ROOT (fs st) = Ok [] ->
   Raising.main stat_refused write_refused unicode_alnum exn_str REPO_ROOT argv st
   = (Ok 1%Z, log (Printed (lit "No lighting-related files found.")) st))
  /\ (forall files tree',
        Raising.discover_files stat_refused unicode_alnum REPO_ROOT (fs st) = Ok files ->
        files <> [] ->
        Raising.write_text write_refused (fs st) (OUTPUT_PATH REPO_ROOT)
          (join newline
             (bundle_lines exn_str REPO_ROOT (fs st) (isoformat (clock st))
                (map (skipn (length REPO_ROOT)) files) files))
        = inr tree' ->
        Raising.main stat_refused write_refused unicode_alnum exn_str REPO_ROOT argv st
        = (Ok 0%Z,
           {| fs := tree'; clock := clock st;
              trace := trace st
                       ++ [WriteText (OUTPUT_PATH REPO_ROOT)
                             (join newline
                                (bundle_lines exn_str REPO_ROOT (fs st)
                                   (isoformat (clock st))
                                   (map (skipn (length REPO_ROOT)) files) files));
                           Printed (lit "Wrote " ++ str_of_nat (length files)
                                    ++ lit " files to "
                                    ++ str_of_path (OUTPUT_PATH REPO_ROOT))] |}))
  /\ (forall n st',
        Raising.main stat_refused write_refused unicode_alnum exn_str REPO_ROOT argv st
        = (Ok n, st') ->
        (n = 1%Z
         /\ Raising.discover_files stat_refused unicode_alnum REPO_ROOT (fs st) = Ok [])
        \/ (n = 0%Z
            /\ exists files tree',
                 Raising.discover_files stat_refused unicode_alnum REPO_ROOT (fs st)
                 = Ok files
                 /\ files <> []
                 /\ Raising.write_text write_refused (fs st) (OUTPUT_PATH REPO_ROOT)
                      (join newline
                         (bundle_lines exn_str REPO_ROOT (fs st) (isoformat (clock st))
                            (map (skipn (length REPO_ROOT)) files) files))
                    = inr tree'))
  /\ (forall e st',
        Raising.main stat_refused write_refused unicode_alnum exn_str REPO_ROOT argv st
        = (Raise e, st') ->
        Raising.discover_files stat_refused unicode_alnum REPO_ROOT (fs st) = Raise e
        \/ exists files,
             Raising.discover_files stat_refused unicode_alnum REPO_ROOT (fs st)
             = Ok files
             /\ Raising.write_text write_refused (fs st) (OUTPUT_PATH REPO_ROOT)
                  (join newline
                     (bundle_lines exn_str REPO_ROOT (fs st) (isoformat (clock st))
                        (map (skipn (length REPO_ROOT)) files) files))
                = inl e).
Proof.
  rewrite raising_main_run.
  destruct (Raising.discover_files stat_refused unicode_alnum REPO_ROOT (fs st))
    as [[|p rest] | e0]; cbv zeta.
  - split; [reflexivity|].
    split; [intros files tree' H Hne; injection H; intros <-; contradiction|].
    split; [|discriminate].
    intros n st' H; injection H; intros _ <-; auto.
  - split; [discriminate|].
    split.
    + intros files tree' H _; injection H; intros <-; intros ->.
      unfold log; cbn [fs clock trace]; rewrite <- app_assoc; reflexivity.
    + split.
      * intros n st' H; right.
        destruct (Raising.write_text write_refused (fs st) (OUTPUT_PATH REPO_ROOT) _)
          as [e | tree'] eqn:Hw; [discriminate|].
        injection H; intros _ <-; split; [reflexivity|].
        exists (p :: rest), tree'; split; [reflexivity|]; split; [discriminate | exact Hw].
      * intros e st' H; right; exists (p :: rest); split; [reflexivity|].
        destruct (Raising.write_text write_refused (fs st) (OUTPUT_PATH REPO_ROOT) _)
          as [e1 | tree'] eqn:Hw; [|discriminate].
        injection H; intros _ <-; reflexivity.
  - split; [discriminate|].
    split; [discriminate|].
    split; [discriminate|].
    intros e st' H; injection H; intros _ <-; auto.
Qed.

End RaisingRun.

Example example_discovery (ua : char -> bool) :
  discover_files ua example_root example_tree
  = [ example_crate ++ [lit "Cargo.toml"];
      example_crate ++ [lit "src"; lit "lib.rs"];
      example_skipped_file;
      example_root ++ [lit "crates"; lit "geist-render"; lit "src"; lit "mesh.rs"] ].
Proof. vm_compute; reflexivity. Qed.

(** The tree of three files used as the running example of the bundle's
    description: the file of the primary directory and the file that names
    [LightingStore] are found, in that order. *)
Example three_file_discovery (ua : char -> bool) :
  discover_files ua example_root
    (in_dirs example_root
       (Dir [ (lit "crates",
               Dir [ (lit "geist-lighting",
                      Dir [ (lit "src", Dir [ (lit "a.rs", text_file "fn a() {}") ]) ]) ]);
              (lit "other",
               Dir [ (lit "b.rs", text_file "LightingStore");
                     (lit "c.rs", text_file "unrelated") ]) ]))
  = [ example_crate ++ [lit "src"; lit "a.rs"];
      example_root ++ [lit "other"; lit "b.rs"] ].
Proof. vm_compute; reflexivity. Qed.



(** C4, as stated, fails: below a directory that may not be searched
    [os.stat] is refused, the [is_file] test raises, and [file_matches]
    returns neither true nor false. *)
Lemma file_matches_raises_below_unsearchable_directory :
  Raising.is_file (unsearchable example_src) example_tree example_mesh
  = Raise (OSError EACCES example_mesh)
  /\ forall ua,
       Raising.file_matches (unsearchable example_src) ua example_tree example_mesh
       = Raise (OSError EACCES example_mesh).
Proof. split; [|intros ua]; vm_compute; reflexivity. Qed.

(** The same refusal ends discovery, and with it the run. *)
Example refused_stat_ends_the_run (ua : char -> bool) (es : exn -> str)
        (wr : path -> option errno) (argv : list str) :
  Raising.discover_files (unsearchable example_src) ua example_root example_tree
  = Raise (OSError EACCES example_mesh)
  /\ Raising.main (unsearchable example_src) wr ua es example_root argv
       {| fs := example_tree; clock := example_clock; trace := [] |}
     = (Raise (OSError EACCES example_mesh),
        {| fs := example_tree; clock := example_clock; trace := [] |}).
Proof. split; vm_compute; reflexivity. Qed.

(** When nothing is refused the example repository is bundled, and the
    repository with nothing to find is not. *)
Example granted_runs :
  (exists st,
      Raising.main nothing_refused nothing_refused ascii_only plain_exn_str
        example_root [] {| fs := example_tree; clock := example_clock; trace := [] |}
      = (Ok 0%Z, st)
      /\ printed (trace st) = [lit "Wrote 4 files to /home/dev/geist/LightingBundle.md"])
  /\ Raising.main nothing_refused nothing_refused ascii_only plain_exn_str
       example_root [] {| fs := bare_tree; clock := example_clock; trace := [] |}
     = (Ok 1%Z,
        {| fs := bare_tree; clock := example_clock;
           trace := [Printed (lit "No lighting-related files found.")] |}).
Proof. split; [eexists; split|]; vm_compute; reflexivity. Qed.

(** C2: the directory [crates/geist-lighting-extra] is neither the primary
    directory nor nested under it, and it is not skip-listed, yet the guard
    of the scan, a test on the printed paths, holds for it: the scan passes
    it over, and its file, which matches a pattern, is not returned. *)
Theorem sibling_with_longer_name_is_passed_over :
  ~ under (lighting_crate example_root) example_sibling
  /\ is_skipped_dir example_sibling = false
  /\ in_lighting_crate example_root example_sibling = true
  /\ forall ua,
       file_matches ua example_tree (example_sibling ++ [lit "lib.rs"]) = true
       /\ ~ In (example_sibling ++ [lit "lib.rs"])
              (discover_files ua example_root example_tree).
Proof.
  split; [|split; [|split]].
  - intros [rel H].
    pose proof (relative_to_app (lighting_crate example_root) rel) as R.
    rewrite <- H in R; vm_compute in R; discriminate.
  - vm_compute; reflexivity.
  - vm_compute; reflexivity.
  - intros ua; split; [vm_compute; reflexivity|].
    rewrite example_discovery; vm_compute.
    intros H; repeat (destruct H as [H | H]; [discriminate|]); exact H.
Qed.

(** With the output path taken by a directory, discovery finds a file,
    the write raises, and [main] raises with it: nothing is printed. *)
Example main_raises_when_output_is_directory :
  (forall ua, discover_files ua example_root blocked_tree
              = [example_crate ++ [lit "lib.rs"]])
  /\ forall ua es argv,
       let run := main ua es example_root argv
                    {| fs := blocked_tree; clock := example_clock; trace := [] |} in
       fst run = Raise (OSError EISDIR (OUTPUT_PATH example_root))
       /\ printed (trace (snd run)) = []
       /\ fs (snd run) = blocked_tree.
Proof.
  split; [intros ua; vm_compute; reflexivity|].
  intros ua es argv; vm_compute; auto.
Qed.

Lemma nothing_found_writes_nothing_witness :
  discover_files ascii_only example_root bare_tree = []
  /\ fs (snd (main ascii_only plain_exn_str example_root []
                {| fs := bare_tree; clock := example_clock; trace := [] |}))
     = bare_tree.
Proof.
  split; [vm_compute; reflexivity|].
  refine (proj1 (proj2 (proj2 (proj2
            (nothing_found_writes_nothing ascii_only plain_exn_str example_root []
               {| fs := bare_tree; clock := example_clock; trace := [] |} _))))).
  vm_compute; reflexivity.
Defined.

Lemma unreadable_file_gets_placeholder_witness :
  exists lines,
    length lines = 29
    /\ nth_error lines 16 = Some (lit "```")
    /\ nth_error lines 17
       = Some (lit "<Error reading file: cannot read /home/dev/geist/crates/geist-lighting/secret.rs>")
    /\ nth_error lines 25 = Some (lit "```rust")
    /\ nth_error lines 26 = Some (lit "fn open() {}").
Proof.
  destruct (@unreadable_file_gets_placeholder plain_exn_str example_root
              [locked_file; example_crate ++ [lit "open.rs"]]
              [ [lit "crates"; lit "geist-lighting"; lit "secret.rs"];
                [lit "crates"; lit "geist-lighting"; lit "open.rs"] ]
              {| fs := locked_tree; clock := example_clock; trace := [] |})
    as (lines & _ & Hlen & Hsec).
  - repeat constructor.
  - exists lines.
    pose proof (Hsec 0 _ eq_refl) as H0.
    pose proof (Hsec 1 _ eq_refl) as H1.
    vm_compute in H0, H1.
    split; [exact Hlen|].
    destruct H0 as (_ & (Hfence0 & Hbody0) & _),
             H1 as (_ & (Hfence1 & _ & _ & _ & Hbody1) & _).
    repeat split; try assumption.
    exact (Hfence1 eq_refl).
Defined.

Example nested_discovery (ua : char -> bool) :
  discover_files ua nested_root nested_tree
  = [ lighting_crate nested_root ++ [lit "Cargo.toml"];
      lighting_crate nested_root ++ [lit "src"; lit "lib.rs"];
      lighting_crate nested_root ++ [lit "target"; lit "out.rs"] ].
Proof. vm_compute; reflexivity. Qed.

Lemma skip_listed_root_prunes_scan_witness :
  is_skipped_dir nested_root = true
  /\ phase2 ascii_only nested_root nested_tree = [].
Proof.
  split; [vm_compute; reflexivity|].
  refine (proj1 (proj2 (proj2
            (skip_listed_root_prunes_scan ascii_only nested_root nested_tree _)))).
  vm_compute; reflexivity.
Defined.

(** A run on the example repository: four files, the write goes through. *)
Example example_run :
  let run := main ascii_only plain_exn_str example_root []
               {| fs := example_tree; clock := example_clock; trace := [] |} in
  fst run = Ok 0%Z
  /\ printed (trace (snd run))
     = [lit "Wrote 4 files to /home/dev/geist/LightingBundle.md"]
  /\ is_file (fs (snd run)) (OUTPUT_PATH example_root) = true.
Proof. vm_compute; auto. Qed.


(** * Further properties *)

(** ** Eligible names *)

Lemma rfind_dot_app (a b : str) :
  rfind_dot (a ++ b)
  = match rfind_dot b with
    | Some i => Some (length a + i)
    | None => rfind_dot a
    end.
Proof.
  induction a as [|c a IH]; simpl.
  - destruct (rfind_dot b); reflexivity.
  - rewrite IH; destruct (rfind_dot b); reflexivity.
Qed.

Lemma in_CODE_EXTS_In (key : str) :
  in_CODE_EXTS key = true <-> In key code_extensions.
Proof.
  unfold in_CODE_EXTS, code_extensions; rewrite existsb_exists, in_map_iff; split.
  - intros (kv & Hin & E); apply str_eqb_eq in E; exists kv; auto.
  - intros (kv & <- & Hin); exists kv; split; [exact Hin | apply str_eqb_refl].
Qed.

Lemma suffix_of_stem_ext (d : path) (stem ext : str) :
  stem <> [] -> In ext code_extensions -> suffix (d ++ [stem ++ ext]) = ext.
Proof.
  intros Hstem Hext; rewrite suffix_snoc; unfold suffix, name; simpl last.
  assert (Hdot : rfind_dot ext = Some 0 /\ 1 < length ext).
  { simpl in Hext; repeat (destruct Hext as [<- | Hext]; [split; [reflexivity | simpl; lia]|]).
    contradiction. }
  destruct Hdot as [Hdot Hlen].
  rewrite rfind_dot_app, Hdot, length_app, Nat.add_0_r.
  destruct stem as [|c stem]; [contradiction|].
  replace ((0 <? length (c :: stem))
           && (length (c :: stem) <? length (c :: stem) + length ext - 1))
    with true.
  - rewrite skipn_app, skipn_all, Nat.sub_diag; reflexivity.
  - symmetry; apply andb_true_iff; split; apply Nat.ltb_lt; simpl; lia.
Qed.

(** X1: the extension test [p.suffix in CODE_EXTS] holds exactly for the
    names made of a non-empty stem followed by [.rs], [.toml] or [.ron]; a
    name that is only the extension, such as [.rs], does not pass. *)
Theorem eligible_iff_stem_and_extension (p : path) :
  in_CODE_EXTS (suffix p) = true
  <-> exists stem ext,
        stem <> [] /\ In ext [lit ".rs"; lit ".toml"; lit ".ron"]
        /\ name p = stem ++ ext.
Proof.
  split.
  - intros H; unfold suffix in *.
    destruct (rfind_dot (name p)) as [i|] eqn:Hi; [|discriminate].
    destruct ((0 <? i) && (i <? length (name p) - 1)) eqn:Hc; [|discriminate].
    apply andb_true_iff in Hc; destruct Hc as [H0 H1].
    apply Nat.ltb_lt in H0, H1.
    exists (firstn i (name p)), (skipn i (name p)); split; [|split].
    + intros E; apply (f_equal (@length char)) in E.
      rewrite length_firstn in E; simpl in E; lia.
    + apply in_CODE_EXTS_In in H; exact H.
    + symmetry; apply firstn_skipn.
  - intros (stem & ext & Hstem & Hext & Hname).
    destruct p as [|c p] using rev_ind.
    + unfold name in Hname; simpl in Hname.
      destruct stem; [contradiction | discriminate].
    + rewrite name_snoc in Hname; subst c.
      rewrite suffix_of_stem_ext by assumption.
      apply in_CODE_EXTS_In; exact Hext.
Qed.

(** ** The keywords behind the patterns *)

Section Keywords.

Variable unicode_alnum : char -> bool.

Lemma boundary_before (prev nxt : option char) :
  is_word unicode_alnum nxt = true ->
  word_boundary unicode_alnum prev nxt = true ->
  is_word unicode_alnum prev = false.
Proof.
  intros Hn; unfold word_boundary; rewrite Hn.
  destruct (is_word unicode_alnum prev); [discriminate | reflexivity].
Qed.

Lemma boundary_after (prev nxt : option char) :
  is_word unicode_alnum prev = true ->
  word_boundary unicode_alnum prev nxt = true ->
  is_word unicode_alnum nxt = false.
Proof.
  intros Hp; unfold word_boundary; rewrite Hp.
  destruct (is_word unicode_alnum nxt); [discriminate | reflexivity].
Qed.

Lemma boundary_at (prev nxt : option char) :
  xorb (is_word unicode_alnum prev) (is_word unicode_alnum nxt) = true ->
  word_boundary unicode_alnum prev nxt = true.
Proof. intros H; exact H. Qed.

(** A pattern of the form [\b w1 (alternatives) \b] matches where one of
    its alternatives [w2] can be read after [w1] between two boundaries. *)
Lemma keyword_shape (w1 w2 : str) (alts : regex) (prev : option char) (post : str) :
  matches unicode_alnum alts (prev_after prev w1) (w2 ++ post)
          (prev_after (prev_after prev w1) w2) post ->
  word_boundary unicode_alnum prev (hd_error (w1 ++ w2 ++ post)) = true ->
  word_boundary unicode_alnum (prev_after (prev_after prev w1) w2) (hd_error post) = true ->
  matches unicode_alnum (Seq WordB (Seq (Lit w1) (Seq alts WordB)))
          prev (w1 ++ w2 ++ post) (prev_after (prev_after prev w1) w2) post.
Proof.
  intros Halt Hb1 Hb2.
  eapply matches_seq; [apply matches_wordb; exact Hb1|].
  eapply matches_seq; [apply matches_lit|].
  eapply matches_seq; [exact Halt|].
  apply matches_wordb; exact Hb2.
Qed.

Lemma plain_shape (w : str) (prev : option char) (post : str) :
  word_boundary unicode_alnum prev (hd_error (w ++ post)) = true ->
  word_boundary unicode_alnum (prev_after prev w) (hd_error post) = true ->
  matches unicode_alnum (Seq WordB (Seq (Lit w) WordB))
          prev (w ++ post) (prev_after prev w) post.
Proof.
  intros Hb1 Hb2.
  eapply matches_seq; [apply matches_wordb; exact Hb1|].
  eapply matches_seq; [apply matches_lit|].
  apply matches_wordb; exact Hb2.
Qed.

Ltac invert_matches :=
  repeat match goal with
         | H : matches _ (Seq _ _) _ _ _ _ |- _ => inversion H; clear H; subst
         | H : matches _ (Alt _ _) _ _ _ _ |- _ => inversion H; clear H; subst
         | H : matches _ WordB _ _ _ _ |- _ => inversion H; clear H; subst
         | H : matches _ Eps _ _ _ _ |- _ => inversion H; clear H; subst
         | H : matches _ (Lit _) _ _ _ _ |- _ => inversion H; clear H; subst
         end.

(** Close a goal [exists w, In w KEYWORDS /\ whole_word w text] from the two
    boundary facts an inverted match leaves behind. *)
Ltac spell w :=
  match goal with
  | Hb1 : word_boundary _ (prev_after None ?pre) _ = true,
    Hb2 : word_boundary _ _ (hd_error ?post) = true |- _ =>
      exists w; split; [unfold KEYWORDS; cbn [In]; pick_member|];
      exists pre, post; split; [reflexivity|]; split;
      [ refine (boundary_before _ _ _ Hb1); reflexivity
      | refine (boundary_after _ _ _ Hb2); reflexivity ]
  end.

Lemma patterns_spell_keywords (text : str) :
  (exists rx, In rx PATTERNS /\ occurs unicode_alnum rx text)
  -> exists w, In w KEYWORDS /\ whole_word unicode_alnum w text.
Proof.
  intros (rx & Hin & pre & rest & p' & s' & -> & Hm).
  unfold PATTERNS in Hin; cbn [In] in Hin.
  destruct Hin as [<- | [<- | [<- | [<- | []]]]]; invert_matches.
  - spell (lit "geist_lighting").
  - spell (lit "LightingStore").
  - spell (lit "LightingBorder").
  - spell (lit "Lightings").
  - spell (lit "Lighting").
  - spell (lit "LightBorders").
  - spell (lit "LightEmitter").
  - spell (lit "Lighting").
  - spell (lit "Light").
  - match goal with
    | Hb1 : word_boundary _ (prev_after None ?pre) _ = true,
      Hb2 : word_boundary _ _ (hd_error ?post) = true |- _ =>
        exists (lit "LightingBorder"); split;
        [unfold KEYWORDS; cbn [In]; pick_member|];
        exists (pre ++ lit "RebuildCause::"), post; split;
        [rewrite <- app_assoc; reflexivity|]; split;
        [ unfold prev_after; rewrite fold_left_app; reflexivity
        | refine (boundary_after _ _ _ Hb2); reflexivity ]
    end.
Qed.

Ltac found_by rx :=
  exists rx; split; [unfold PATTERNS; cbn [In]; pick_member|];
  match goal with
  | |- occurs _ _ (?pre ++ _ ++ ?post) =>
      exists pre; eexists; eexists; exists post; split; [reflexivity|]
  end.

Ltac at_boundaries :=
  match goal with
  | Hp : is_word _ (prev_after None _) = false,
    Hq : is_word _ (hd_error _) = false |- _ =>
      first [ apply boundary_at; rewrite Hp; reflexivity
            | apply boundary_at; rewrite Hq; reflexivity ]
  end.

Lemma keywords_spelt_by_patterns (text : str) :
  (exists w, In w KEYWORDS /\ whole_word unicode_alnum w text)
  -> exists rx, In rx PATTERNS /\ occurs unicode_alnum rx text.
Proof.
  intros (w & Hin & pre & post & -> & Hp & Hq).
  unfold KEYWORDS in Hin; cbn [In] in Hin.
  destruct Hin as [<- | [<- | [<- | [<- | [<- | [<- | [<- | [<- | []]]]]]]]].
  - found_by (nth 0 PATTERNS Eps).
    apply plain_shape; at_boundaries.
  - found_by (nth 1 PATTERNS Eps).
    change (lit "Lighting" ++ post) with (lit "Lighting" ++ [] ++ post).
    apply keyword_shape; [|at_boundaries..].
    do 3 apply matches_alt_r; apply matches_eps.
  - found_by (nth 1 PATTERNS Eps).
    change (lit "LightingStore" ++ post) with (lit "Lighting" ++ lit "Store" ++ post).
    apply keyword_shape; [|at_boundaries..].
    apply matches_alt_l, matches_lit.
  - found_by (nth 1 PATTERNS Eps).
    change (lit "LightingBorder" ++ post) with (lit "Lighting" ++ lit "Border" ++ post).
    apply keyword_shape; [|at_boundaries..].
    apply matches_alt_r, matches_alt_l, matches_lit.
  - found_by (nth 1 PATTERNS Eps).
    change (lit "Lightings" ++ post) with (lit "Lighting" ++ lit "s" ++ post).
    apply keyword_shape; [|at_boundaries..].
    do 2 apply matches_alt_r; apply matches_alt_l, matches_lit.
  - found_by (nth 2 PATTERNS Eps).
    change (lit "Light" ++ post) with (lit "Light" ++ [] ++ post).
    apply keyword_shape; [|at_boundaries..].
    do 3 apply matches_alt_r; apply matches_eps.
  - found_by (nth 2 PATTERNS Eps).
    change (lit "LightBorders" ++ post) with (lit "Light" ++ lit "Borders" ++ post).
    apply keyword_shape; [|at_boundaries..].
    apply matches_alt_l, matches_lit.
  - found_by (nth 2 PATTERNS Eps).
    change (lit "LightEmitter" ++ post) with (lit "Light" ++ lit "Emitter" ++ post).
    apply keyword_shape; [|at_boundaries..].
    apply matches_alt_r, matches_alt_l, matches_lit.
Qed.

(** X2: the test [any(rx.search(text) for rx in COMPILED)] holds exactly
    when the text holds one of eight keywords ([geist_lighting], [Lighting],
    [LightingStore], [LightingBorder], [Lightings], [Light], [LightBorders],
    [LightEmitter]) as a whole word, with no word character right before or
    right after it; the pattern for [RebuildCause::LightingBorder] accepts
    nothing that the pattern for [LightingBorder] does not. *)
Theorem keywords_decide_content (text : str) :
  existsb (fun rx => search unicode_alnum rx text) COMPILED = true
  <-> exists w, In w KEYWORDS /\ whole_word unicode_alnum w text.
Proof.
  unfold COMPILED; rewrite existsb_exists; split.
  - intros (rx & Hin & Hs); apply patterns_spell_keywords.
    exists rx; split; [exact Hin | apply search_spec; exact Hs].
  - intros H; apply keywords_spelt_by_patterns in H.
    destruct H as (rx & Hin & Ho).
    exists rx; split; [exact Hin | apply search_spec; exact Ho].
Qed.

End Keywords.

(** ** What discovery returns *)

Section Returned.

Variable unicode_alnum : char -> bool.
Variable REPO_ROOT : path.
Variable tree : node.

Let crate := lighting_crate REPO_ROOT.
Let out := discover_files unicode_alnum REPO_ROOT tree.

Lemma returned_eligible (p : path) :
  In p out -> is_file tree p = true /\ in_CODE_EXTS (suffix p) = true.
Proof.
  intros H; apply discover_files_In, in_app_iff in H; destruct H as [H | H].
  - apply phase1_spec in H; tauto.
  - apply phase2_spec in H.
    destruct H as (d & fname & _ & _ & _ & _ & _ & Hm).
    apply file_matches_true in Hm; exact Hm.
Qed.

Lemma file_matches_keyword (p : path) :
  file_matches unicode_alnum tree p = true ->
  exists text w,
    read_text tree p = inl text
    /\ In w KEYWORDS /\ whole_word unicode_alnum w text.
Proof.
  unfold file_matches.
  destruct (is_file tree p); [|discriminate].
  destruct (in_CODE_EXTS (suffix p)); [|discriminate].
  destruct (read_text tree p) as [text | e]; [|discriminate].
  cbn [negb]; unfold COMPILED; rewrite existsb_exists.
  intros (rx & Hin & Hs).
  destruct (@patterns_spell_keywords unicode_alnum text) as (w & Hw & Hword).
  - exists rx; split; [exact Hin | apply search_spec; exact Hs].
  - exists text, w; auto.
Qed.

Lemma phase2_outside_primary (p : path) :
  In p (phase2 unicode_alnum REPO_ROOT tree) -> ~ under crate p.
Proof.
  intros H [rel Hp].
  destruct (@phase2_spec unicode_alnum REPO_ROOT tree _ H) as (d & fname & -> & _ & Hs & Hc & He & _).
  destruct rel as [|x rel] using rev_ind.
  - rewrite app_nil_r in Hp; unfold crate, lighting_crate in Hp.
    change (REPO_ROOT ++ [lit "crates"; lit "geist-lighting"])
      with (REPO_ROOT ++ [lit "crates"] ++ [lit "geist-lighting"]) in Hp.
    rewrite app_assoc in Hp; apply app_inj_tail in Hp; destruct Hp as [_ ->].
    rewrite suffix_snoc in He; vm_compute in He; discriminate.
  - rewrite app_assoc in Hp; apply app_inj_tail in Hp; destruct Hp as [-> _].
    destruct (@below_primary_is_passed_over unicode_alnum REPO_ROOT tree
                (crate ++ rel) [] [] (ex_intro _ rel eq_refl) Hs) as [Hin _].
    fold crate in Hin; congruence.
Qed.

(** X3: a file that [discover_files] returns from outside the primary
    directory can be read and its text holds one of the keywords as a whole
    word: a file outside the primary directory without any of them is never
    returned. *)
Theorem returned_outside_primary_has_keyword (p : path) :
  In p (discover_files unicode_alnum REPO_ROOT tree) ->
  ~ under (lighting_crate REPO_ROOT) p ->
  exists text w,
    read_text tree p = inl text
    /\ In w KEYWORDS /\ whole_word unicode_alnum w text.
Proof.
  intros H Hout; apply discover_files_In, in_app_iff in H; destruct H as [H | H].
  - apply phase1_spec in H; destruct H as [H _]; contradiction.
  - apply phase2_spec in H.
    destruct H as (d & fname & _ & _ & _ & _ & _ & Hm).
    apply file_matches_keyword; exact Hm.
Qed.

(** X4: the scan of the second phase never yields a path at or below the
    primary directory, so a returned path lies below the primary directory
    exactly when the first phase collected it, with no content test. *)
Theorem primary_files_come_from_first_phase :
  (forall p, In p (phase2 unicode_alnum REPO_ROOT tree) ->
             ~ under (lighting_crate REPO_ROOT) p)
  /\ (forall p, In p (discover_files unicode_alnum REPO_ROOT tree) ->
                (under (lighting_crate REPO_ROOT) p
                 <-> In p (phase1 REPO_ROOT tree))).
Proof.
  split; [exact phase2_outside_primary|].
  intros p H; split.
  - intros Hu; apply discover_files_In, in_app_iff in H; destruct H as [H | H].
    + exact H.
    + apply phase2_outside_primary in H; contradiction.
  - intros H1; apply phase1_spec in H1; tauto.
Qed.

(** X5: the output path [REPO_ROOT/LightingBundle.md] is never an element
    of the list that [discover_files] returns: its extension is not a key
    of [CODE_EXTS]. *)
Theorem output_path_is_not_returned :
  ~ In (OUTPUT_PATH REPO_ROOT) (discover_files unicode_alnum REPO_ROOT tree).
Proof.
  intros H; apply returned_eligible in H; destruct H as [_ H].
  unfold OUTPUT_PATH in H; rewrite suffix_snoc in H.
  vm_compute in H; discriminate.
Qed.

(** X6: [language_for] gives every path that [discover_files] returns one
    of the labels [rust], [toml], [ron]; the empty default is never used
    for a discovered file. *)
Theorem returned_files_have_language (p : path) :
  In p (discover_files unicode_alnum REPO_ROOT tree) ->
  In (language_for p) [lit "rust"; lit "toml"; lit "ron"].
Proof.
  intros H; apply returned_eligible in H; destruct H as [_ H].
  apply in_CODE_EXTS_In in H; unfold language_for.
  unfold code_extensions in H; cbn [map CODE_EXTS fst In] in H.
  destruct H as [<- | [<- | [<- | []]]]; vm_compute; auto.
Qed.

(** X7: every path that [discover_files] returns lies strictly below
    [REPO_ROOT]: [relative_to] succeeds on it and the relative path has at
    least one component, so the table of contents never shows a bare dot. *)
Theorem returned_strictly_below_root (p : path) :
  In p (discover_files unicode_alnum REPO_ROOT tree) ->
  exists rel,
    rel <> [] /\ p = REPO_ROOT ++ rel /\ relative_to p REPO_ROOT = Some rel
    /\ str_of_relpath rel = join (lit "/") rel.
Proof.
  intros H; apply discover_files_In, in_app_iff in H.
  assert (Hrel : exists rel, rel <> [] /\ p = REPO_ROOT ++ rel).
  { destruct H as [H | H].
    - apply phase1_spec in H; destruct H as [[rel ->] _].
      exists ([lit "crates"; lit "geist-lighting"] ++ rel); split; [discriminate|].
      unfold lighting_crate; rewrite <- app_assoc; reflexivity.
    - apply phase2_spec in H.
      destruct H as (d & fname & -> & [rel ->] & _).
      exists (rel ++ [fname]); split; [|rewrite app_assoc; reflexivity].
      intros E; apply app_eq_nil in E; destruct E; discriminate. }
  destruct Hrel as (rel & Hne & ->).
  exists rel; split; [exact Hne|]; split; [reflexivity|].
  split; [apply relative_to_app|].
  destruct rel; [contradiction | reflexivity].
Qed.

End Returned.

(** ** Everything below the primary directory is collected *)

Lemma find_entry_In (nm : str) (es : list (str * node)) (n : node) :
  find_entry nm es = Some n -> In (nm, n) es.
Proof.
  induction es as [|[k v] es IH]; simpl; [discriminate|].
  destruct (str_eqb k nm) eqn:E.
  - apply str_eqb_eq in E; subst k; intros H; injection H; intros ->; auto.
  - intros H; right; exact (IH H).
Qed.

Lemma rglob_node_complete (rel : path) :
  forall (n x : node) (p : path),
    rel <> [] -> lookup n rel = Some x -> In (p ++ rel) (rglob_node p n).
Proof.
  induction rel as [|c rel IH]; intros n x p Hne Hl; [contradiction|].
  simpl in Hl; destruct n as [content | es | target]; try discriminate.
  destruct (find_entry c es) as [n'|] eqn:Hf; [|discriminate].
  apply find_entry_In in Hf; simpl.
  apply in_app_iff; destruct rel as [|c' rel].
  - left; apply in_map_iff; exists (c, n'); auto.
  - right; apply in_flat_map; exists (c, n'); split; [exact Hf|].
    simpl; replace (p ++ c :: c' :: rel) with ((p ++ [c]) ++ c' :: rel)
      by (rewrite <- app_assoc; reflexivity).
    apply IH with (x := x); [discriminate | exact Hl].
Qed.

Section Collected.

Variable unicode_alnum : char -> bool.
Variable REPO_ROOT : path.
Variable tree : node.

(** X8: a path below the primary directory that is reached from it through
    directories proper, leads to a regular file and has a listed extension
    is collected by the first phase whatever the file contains, and the
    list [discover_files] returns holds it or an earlier path that resolves
    to the same file. *)
Theorem primary_files_are_collected (n x : node) (rel : path) :
  stat tree (lighting_crate REPO_ROOT) = inr n ->
  rel <> [] -> lookup n rel = Some x ->
  is_file tree (lighting_crate REPO_ROOT ++ rel) = true ->
  in_CODE_EXTS (suffix (lighting_crate REPO_ROOT ++ rel)) = true ->
  In (lighting_crate REPO_ROOT ++ rel) (phase1 REPO_ROOT tree)
  /\ In (resolve tree (lighting_crate REPO_ROOT ++ rel))
        (map (resolve tree) (discover_files unicode_alnum REPO_ROOT tree)).
Proof.
  intros Hstat Hne Hl Hf He.
  assert (H1 : In (lighting_crate REPO_ROOT ++ rel) (phase1 REPO_ROOT tree)).
  { unfold phase1, exists_, rglob; rewrite Hstat.
    apply filter_In; split; [|rewrite Hf, He; reflexivity].
    apply rglob_node_complete with (x := x); assumption. }
  split; [exact H1|].
  unfold discover_files.
  destruct (dedup_complete tree (phase1 REPO_ROOT tree
                                 ++ phase2 unicode_alnum REPO_ROOT tree) []
              (lighting_crate REPO_ROOT ++ rel)) as [[] | H];
    [apply in_app_iff; left; exact H1 | exact H].
Qed.

End Collected.

(** ** Anchors *)

Lemma lit_inj (a b : string) : lit a = lit b -> a = b.
Proof.
  unfold lit; intros H.
  apply (f_equal (map ascii_of_N)) in H.
  rewrite !map_map in H.
  rewrite !(map_ext _ (fun a => a) ascii_N_embedding), !map_id in H.
  rewrite <- (string_of_list_ascii_of_string a), <- (string_of_list_ascii_of_string b).
  rewrite H; reflexivity.
Qed.

Lemma str_of_nat_inj (i j : nat) : str_of_nat i = str_of_nat j -> i = j.
Proof.
  unfold str_of_nat; intros H; apply lit_inj in H.
  apply Unsigned.to_uint_inj.
  pose proof (NilEmpty.usu (Nat.to_uint i)) as Hi.
  pose proof (NilEmpty.usu (Nat.to_uint j)) as Hj.
  rewrite H in Hi; rewrite Hi in Hj; injection Hj; auto.
Qed.

(** X9: the anchor of a section and the entry of the table of contents
    carry the index faithfully: two anchors are the same text only for the
    same index, and so are two entries for one relative path, so that no
    two files of a bundle share an anchor or a link target. *)
Theorem anchors_are_distinct (i j : nat) :
  (anchor i = anchor j <-> i = j)
  /\ (forall rp, toc_entry i rp = toc_entry j rp <-> i = j).
Proof.
  split; [|intros rp]; (split; [|intros ->; reflexivity]); intros H.
  - unfold anchor in H.
    repeat apply app_inv_head in H.
    apply app_inv_tail in H; apply str_of_nat_inj; exact H.
  - unfold toc_entry in H.
    repeat apply app_inv_head in H.
    apply app_inv_tail in H; apply str_of_nat_inj; exact H.
Qed.

(** ** De-duplication, again *)

Section DedupAgain.

Variable unicode_alnum : char -> bool.
Variable REPO_ROOT : path.
Variable tree : node.

Lemma dedup_fixed (files : list path) :
  forall seen,
    NoDup (map (resolve tree) files) ->
    (forall p, In p files -> ~ In (resolve tree p) seen) ->
    dedup tree seen files = files.
Proof.
  induction files as [|p files IH]; intros seen Hnd Hseen; simpl; [reflexivity|].
  destruct (existsb (path_eqb (resolve tree p)) seen) eqn:E.
  - apply path_in_In in E; exfalso; exact (Hseen p (or_introl eq_refl) E).
  - f_equal; simpl in Hnd; inversion Hnd as [|r l Hnotin Hnd']; subst.
    apply IH; [exact Hnd'|].
    intros q Hq [Heq | Hin].
    + apply Hnotin; rewrite Heq; apply in_map; exact Hq.
    + exact (Hseen q (or_intror Hq) Hin).
Qed.

(** X10: de-duplicating the list that [discover_files] returns once more
    changes nothing, and when no two files found by the two phases resolve
    to the same path the list returned is the files of the first phase
    followed by the files of the second, none left out. *)
Theorem dedup_keeps_distinct_files :
  dedup tree [] (discover_files unicode_alnum REPO_ROOT tree)
  = discover_files unicode_alnum REPO_ROOT tree
  /\ (NoDup (map (resolve tree)
               (phase1 REPO_ROOT tree ++ phase2 unicode_alnum REPO_ROOT tree)) ->
      discover_files unicode_alnum REPO_ROOT tree
      = phase1 REPO_ROOT tree ++ phase2 unicode_alnum REPO_ROOT tree).
Proof.
  split.
  - apply dedup_fixed; [apply dedup_NoDup | intros p _ []].
  - intros H; apply dedup_fixed; [exact H | intros p _ []].
Qed.

End DedupAgain.

(** ** Everything that matches outside is found *)

Lemma lookup_app (a b : path) :
  forall n,
    lookup n (a ++ b)
    = match lookup n a with
      | Some m => lookup m b
      | None => None
      end.
Proof.
  induction a as [|c a IH]; intros n; simpl; [reflexivity|].
  destruct n as [content | es | target]; try reflexivity.
  destruct (find_entry c es); [apply IH | reflexivity].
Qed.

Lemma realpath_from_plain (create : bool) (links : nat) (tree : node) (rest : path) :
  forall done,
    plain_from tree done rest ->
    realpath_from create links tree done rest = inr (done ++ rest).
Proof.
  induction rest as [|c rest IH]; intros done Hp.
  - destruct links; simpl; rewrite app_nil_r; reflexivity.
  - destruct Hp as [(x & Hx & Hlink) Hp].
    specialize (IH _ Hp).
    replace (done ++ c :: rest) with ((done ++ [c]) ++ rest)
      by (rewrite <- app_assoc; reflexivity).
    rewrite <- IH.
    destruct links; simpl; rewrite Hx;
      destruct x as [content | es | target]; try reflexivity;
      exfalso; exact (Hlink target eq_refl).
Qed.

Lemma plain_from_app (tree : node) (a b : path) :
  forall done,
    plain_from tree done (a ++ b)
    <-> plain_from tree done a /\ plain_from tree (done ++ a) b.
Proof.
  induction a as [|c a IH]; intros done; simpl.
  - rewrite app_nil_r; tauto.
  - rewrite IH, <- app_assoc; simpl; tauto.
Qed.

Lemma stat_plain (tree : node) (p : path) (x : node) :
  plain_from tree [] p -> lookup tree p = Some x -> stat tree p = inr x.
Proof.
  intros Hp Hl; unfold stat, realpath.
  rewrite realpath_from_plain by exact Hp; simpl; rewrite Hl; reflexivity.
Qed.

Lemma is_skipped_dir_prefix (d rel : path) :
  is_skipped_dir (d ++ rel) = false -> is_skipped_dir d = false.
Proof.
  intros H; destruct (is_skipped_dir d) eqn:E; [|reflexivity].
  rewrite (is_skipped_dir_app d rel E) in H; discriminate.
Qed.

Section Found.

Variable unicode_alnum : char -> bool.
Variable REPO_ROOT : path.
Variable tree : node.

Let body := scan_body unicode_alnum REPO_ROOT tree.

Lemma scan_body_keeps_dirs (d : path) (dirs filenames : list str) :
  is_skipped_dir d = false -> fst (body d dirs filenames) = dirs.
Proof.
  intros H; unfold body, scan_body; rewrite H.
  destruct (in_lighting_crate REPO_ROOT d); reflexivity.
Qed.

(** What the loop body collects at a directory that is reached from the
    starting point through directories proper, none of them skip-listed,
    is part of what the walk yields. *)
Lemma walk_scan_reaches (rel : path) :
  forall top n,
    lookup tree top = Some n ->
    plain_from tree [] top -> plain_from tree top rel ->
    is_skipped_dir (top ++ rel) = false ->
    forall es x,
      lookup n rel = Some (Dir es) ->
      In x (snd (body (top ++ rel)
                   (filter (fun nm => is_dir tree ((top ++ rel) ++ [nm])) (map fst es))
                   (filter (fun nm => negb (is_dir tree ((top ++ rel) ++ [nm])))
                           (map fst es)))) ->
      In x (walk_node tree body top n).
Proof.
  induction rel as [|c rel IH]; intros top n Htop Hplain Hrel Hskip es x Hl Hx.
  - simpl in Hl; injection Hl; intros ->.
    rewrite app_nil_r in Hx; simpl.
    destruct (body top _ _) as [dirs' found]; simpl in Hx.
    apply in_app_iff; left; exact Hx.
  - simpl in Hl; destruct n as [content | es0 | target]; try discriminate.
    destruct (find_entry c es0) as [n'|] eqn:Hf; [|discriminate].
    assert (Hc : lookup tree (top ++ [c]) = Some n')
      by (rewrite lookup_app, Htop; simpl; rewrite Hf; reflexivity).
    destruct Hrel as [_ Hrel].
    assert (Hplain' : plain_from tree [] (top ++ [c])).
    { apply plain_from_app; split; [exact Hplain|].
      simpl; split; [|exact I].
      exists n'; split; [exact Hc|].
      intros t ->; destruct rel; simpl in Hl; discriminate. }
    assert (Hdir : exists es1, n' = Dir es1).
    { destruct n' as [content | es1 | target];
        [destruct rel; simpl in Hl; discriminate | eauto
        | destruct rel; simpl in Hl; discriminate]. }
    destruct Hdir as [es1 ->].
    replace (top ++ c :: rel) with ((top ++ [c]) ++ rel) in *
      by (rewrite <- app_assoc; reflexivity).
    pose proof (is_skipped_dir_prefix _ _ (is_skipped_dir_prefix _ _ Hskip)) as Hskip0.
    simpl.
    pose proof (scan_body_keeps_dirs top
                  (filter (fun nm => is_dir tree (top ++ [nm])) (map fst es0))
                  (filter (fun nm => negb (is_dir tree (top ++ [nm]))) (map fst es0))
                  Hskip0) as Hdirs.
    destruct (body top _ _) as [dirs' found]; simpl in Hdirs; subst dirs'.
    apply in_app_iff; right; apply in_flat_map.
    exists (c, Dir es1); split; [apply find_entry_In; exact Hf|].
    cbn [fst snd].
    replace (str_in c (filter (fun nm => is_dir tree (top ++ [nm])) (map fst es0)))
      with true.
    + apply IH with (es := es); assumption.
    + symmetry; apply str_in_In, filter_In; split.
      * apply find_entry_In in Hf; apply (in_map fst) in Hf; exact Hf.
      * unfold is_dir; rewrite stat_plain with (x := Dir es1) by assumption.
        reflexivity.
Qed.

(** X11: a file that sits directly in a directory reached from
    [REPO_ROOT] through directories proper, where the path of the directory
    has no skip-listed component and does not meet the guard for the
    primary directory, and that has a listed extension and passes
    [file_matches], is found by the second phase; the list
    [discover_files] returns holds it or an earlier path that resolves to
    the same file. *)
Theorem matching_files_are_found (rel : path) (es : list (str * node)) (fname : str) :
  plain_from tree [] (REPO_ROOT ++ rel) ->
  lookup tree (REPO_ROOT ++ rel) = Some (Dir es) ->
  In fname (map fst es) ->
  is_skipped_dir (REPO_ROOT ++ rel) = false ->
  in_lighting_crate REPO_ROOT (REPO_ROOT ++ rel) = false ->
  in_CODE_EXTS (suffix [fname]) = true ->
  file_matches unicode_alnum tree (REPO_ROOT ++ rel ++ [fname]) = true ->
  In (REPO_ROOT ++ rel ++ [fname]) (phase2 unicode_alnum REPO_ROOT tree)
  /\ In (resolve tree (REPO_ROOT ++ rel ++ [fname]))
        (map (resolve tree) (discover_files unicode_alnum REPO_ROOT tree)).
Proof.
  intros Hplain Hl Hname Hskip Hcrate Hext Hm.
  apply plain_from_app in Hplain; destruct Hplain as [Hroot Hrel].
  rewrite lookup_app in Hl.
  destruct (lookup tree REPO_ROOT) as [n0|] eqn:Hn0; [|discriminate].
  assert (H2 : In (REPO_ROOT ++ rel ++ [fname]) (phase2 unicode_alnum REPO_ROOT tree)).
  { unfold phase2, os_walk; rewrite stat_plain with (x := n0) by assumption.
    apply walk_scan_reaches with (rel := rel) (es := es); try assumption.
    unfold body, scan_body; rewrite Hskip, Hcrate; simpl snd.
    rewrite app_assoc in *.
    apply filter_In; split.
    - apply in_map_iff; exists fname; split; [reflexivity|].
      apply filter_In; split; [exact Hname|].
      apply file_matches_true in Hm; destruct Hm as [Hf _].
      unfold is_file in Hf; unfold is_dir.
      destruct (stat tree ((REPO_ROOT ++ rel) ++ [fname])) as [e | [c | es' | t]];
        try discriminate; reflexivity.
    - rewrite suffix_snoc, Hext, Hm; reflexivity. }
  split; [exact H2|].
  unfold discover_files.
  destruct (dedup_complete tree (phase1 REPO_ROOT tree
                                 ++ phase2 unicode_alnum REPO_ROOT tree) []
              (REPO_ROOT ++ rel ++ [fname])) as [[] | H];
    [apply in_app_iff; right; exact H2 | exact H].
Qed.

End Found.

(** ** The properties at work on the example repository *)

Lemma example_mesh_outside_primary :
  ~ under (lighting_crate example_root)
      (example_root ++ [lit "crates"; lit "geist-render"; lit "src"; lit "mesh.rs"]).
Proof.
  intros [rel H].
  pose proof (relative_to_app (lighting_crate example_root) rel) as R.
  rewrite <- H in R; vm_compute in R; discriminate.
Qed.

Lemma returned_outside_primary_has_keyword_witness :
  exists text w,
    read_text example_tree
      (example_root ++ [lit "crates"; lit "geist-render"; lit "src"; lit "mesh.rs"])
    = inl text
    /\ In w KEYWORDS /\ whole_word ascii_only w text.
Proof.
  apply (@returned_outside_primary_has_keyword ascii_only example_root example_tree).
  - rewrite example_discovery; simpl; auto.
  - exact example_mesh_outside_primary.
Defined.

Lemma returned_files_have_language_witness :
  In (language_for (example_crate ++ [lit "Cargo.toml"]))
     [lit "rust"; lit "toml"; lit "ron"].
Proof.
  apply (@returned_files_have_language ascii_only example_root example_tree).
  rewrite example_discovery; simpl; auto.
Defined.

Lemma returned_strictly_below_root_witness :
  exists rel,
    rel <> []
    /\ example_skipped_file = example_root ++ rel
    /\ relative_to example_skipped_file example_root = Some rel
    /\ str_of_relpath rel = join (lit "/") rel.
Proof.
  apply (@returned_strictly_below_root ascii_only example_root example_tree).
  rewrite example_discovery; simpl; auto.
Defined.

Lemma primary_files_are_collected_witness :
  In example_skipped_file (phase1 example_root example_tree)
  /\ In (resolve example_tree example_skipped_file)
        (map (resolve example_tree)
             (discover_files ascii_only example_root example_tree)).
Proof.
  eapply (@primary_files_are_collected ascii_only example_root example_tree _ _
            [lit "target"; lit "out.rs"]).
  - vm_compute; reflexivity.
  - discriminate.
  - vm_compute; reflexivity.
  - vm_compute; reflexivity.
  - vm_compute; reflexivity.
Defined.

Lemma matching_files_are_found_witness :
  In (example_root ++ [lit "crates"; lit "geist-render"; lit "src"] ++ [lit "mesh.rs"])
     (phase2 ascii_only example_root example_tree)
  /\ In (resolve example_tree
           (example_root ++ [lit "crates"; lit "geist-render"; lit "src"] ++ [lit "mesh.rs"]))
        (map (resolve example_tree)
             (discover_files ascii_only example_root example_tree)).
Proof.
  eapply (@matching_files_are_found ascii_only example_root example_tree
            [lit "crates"; lit "geist-render"; lit "src"] _ (lit "mesh.rs")).
  - cbn [plain_from app example_root];
      repeat (split; [eexists; split; [vm_compute; reflexivity | discriminate]|]);
      exact I.
  - vm_compute; reflexivity.
  - vm_compute; auto.
  - vm_compute; reflexivity.
  - vm_compute; reflexivity.
  - vm_compute; reflexivity.
  - vm_compute; reflexivity.
Defined.

(** ** Running twice *)

Lemma put_cons_dir (c : str) (p' : path) (new : node) (es : list (str * node)) :
  put (c :: p') new (Dir es) = Dir (put_entries c p' new es).
Proof.
  simpl; f_equal; induction es as [|[k v] es IH]; simpl; [reflexivity|].
  destruct (str_eqb k c); [reflexivity | f_equal; exact IH].
Qed.

Lemma find_entry_put_other (c d : str) (p' : path) (new : node) (es : list (str * node)) :
  d <> c -> find_entry d (put_entries c p' new es) = find_entry d es.
Proof.
  intros Hne; induction es as [|[k v] es IH]; simpl.
  - destruct p'; simpl; [|reflexivity].
    destruct (str_eqb c d) eqn:E; [apply str_eqb_eq in E; congruence | reflexivity].
  - destruct (str_eqb k c) eqn:Ekc; simpl.
    + apply str_eqb_eq in Ekc; subst k.
      destruct (str_eqb c d) eqn:E; [apply str_eqb_eq in E; congruence | reflexivity].
    + destruct (str_eqb k d); [reflexivity | exact IH].
Qed.

Lemma find_entry_put_same (c : str) (p' : path) (new : node) (es : list (str * node)) :
  find_entry c (put_entries c p' new es)
  = match find_entry c es with
    | Some v => Some (put p' new v)
    | None => match p' with [] => Some new | _ :: _ => None end
    end.
Proof.
  induction es as [|[k v] es IH]; simpl.
  - destruct p'; simpl; [rewrite str_eqb_refl|]; reflexivity.
  - destruct (str_eqb k c) eqn:Ekc; simpl; rewrite Ekc; [reflexivity | exact IH].
Qed.

(** Away from the path written, and from what leads to it, nothing changes. *)
Lemma lookup_put_off (q : path) (new : node) :
  forall n p,
    (forall r, p <> q ++ r) -> (forall r, q <> p ++ r) ->
    lookup (put q new n) p = lookup n p.
Proof.
  induction q as [|c q IH]; intros n p Hpq Hqp.
  - exfalso; exact (Hpq p eq_refl).
  - destruct p as [|d p]; [exfalso; exact (Hqp (c :: q) eq_refl)|].
    destruct n as [content | es | target]; try reflexivity.
    rewrite put_cons_dir; simpl.
    destruct (str_eqb d c) eqn:E.
    + apply str_eqb_eq in E; subst d.
      rewrite find_entry_put_same.
      destruct (find_entry c es) as [v|].
      * apply IH; intros r H; [apply (Hpq r) | apply (Hqp r)]; simpl; congruence.
      * destruct q; [exfalso; exact (Hpq p eq_refl) | reflexivity].
    + rewrite find_entry_put_other; [reflexivity|].
      intros ->; rewrite str_eqb_refl in E; discriminate.
Qed.

Lemma lookup_put_parent (parent : path) (o : str) (new : node) :
  forall n es,
    lookup n parent = Some (Dir es) ->
    lookup (put (parent ++ [o]) new n) parent = Some (Dir (put_entries o [] new es)).
Proof.
  induction parent as [|c parent IH]; intros n es Hl.
  - simpl in Hl; injection Hl; intros ->.
    simpl app; rewrite put_cons_dir; reflexivity.
  - simpl in Hl; destruct n as [content | es0 | target]; try discriminate.
    destruct (find_entry c es0) as [v|] eqn:Hf; [|discriminate].
    simpl app; rewrite put_cons_dir; simpl.
    rewrite find_entry_put_same, Hf; apply IH; exact Hl.
Qed.

Lemma lookup_put_at (parent : path) (o : str) (new : node) (n : node)
      (es : list (str * node)) :
  lookup n parent = Some (Dir es) ->
  lookup (put (parent ++ [o]) new n) (parent ++ [o]) = Some new.
Proof.
  intros Hl; rewrite lookup_app, lookup_put_parent with (es := es) by exact Hl.
  simpl.
  rewrite find_entry_put_same; destruct (find_entry o es); reflexivity.
Qed.

Lemma links_free_lookup (p : path) :
  forall n x, links_free n = true -> lookup n p = Some x -> links_free x = true.
Proof.
  induction p as [|c p IH]; intros n x Hn Hl; simpl in Hl.
  - injection Hl; intros <-; exact Hn.
  - destruct n as [content | es | target]; try discriminate.
    destruct (find_entry c es) as [v|] eqn:Hf; [|discriminate].
    apply find_entry_In in Hf; simpl in Hn.
    rewrite forallb_forall in Hn; exact (IH _ _ (Hn _ Hf) Hl).
Qed.

Lemma links_free_put (q : path) (new : node) :
  links_free new = true ->
  forall n, links_free n = true -> links_free (put q new n) = true.
Proof.
  intros Hnew; induction q as [|c q IH]; intros n Hn; [exact Hnew|].
  destruct n as [content | es | target]; try exact Hn.
  rewrite put_cons_dir; simpl in *.
  induction es as [|[k v] es IHes]; simpl.
  - destruct q; simpl; [rewrite Hnew|]; reflexivity.
  - simpl in Hn; apply andb_true_iff in Hn; destruct Hn as [Hv Hes].
    destruct (str_eqb k c); simpl.
    + rewrite (IH _ Hv), Hes; reflexivity.
    + rewrite Hv, (IHes Hes); reflexivity.
Qed.

Lemma realpath_from_nil (create : bool) (links : nat) (tree : node) (done : path) :
  realpath_from create links tree done [] = inr done.
Proof. destruct links; reflexivity. Qed.

Lemma realpath_from_cons (create : bool) (links : nat) (tree : node)
      (done : path) (c : str) (rest : path) :
  realpath_from create links tree done (c :: rest)
  = match lookup tree (done ++ [c]) with
    | Some (Symlink t) =>
        match links with
        | O => inl ELOOP
        | S l => realpath_from create l tree [] (t ++ rest)
        end
    | Some _ => realpath_from create links tree (done ++ [c]) rest
    | None =>
        match lookup tree done, rest with
        | Some (Dir _), [] => if create then inr (done ++ [c]) else inl ENOENT
        | Some (Dir _), _ :: _ => inl ENOENT
        | _, _ => inl ENOTDIR
        end
    end.
Proof. destruct links; reflexivity. Qed.

Lemma realpath_from_app_plain (create : bool) (links : nat) (tree : node) (a b : path) :
  forall done,
    plain_from tree done a ->
    realpath_from create links tree done (a ++ b)
    = realpath_from create links tree (done ++ a) b.
Proof.
  induction a as [|c a IH]; intros done Hp; simpl app.
  - rewrite app_nil_r; reflexivity.
  - destruct Hp as [(x & Hx & Hlink) Hp].
    rewrite realpath_from_cons, Hx, (IH _ Hp), <- app_assoc.
    destruct x as [content | es | target]; try reflexivity.
    exfalso; exact (Hlink target eq_refl).
Qed.

(** Below a node without links every step meets a file or a directory. *)
Lemma plain_of_lookup (tree : node) (rest : path) :
  forall done n x,
    lookup tree done = Some n -> links_free n = true ->
    lookup tree (done ++ rest) = Some x -> plain_from tree done rest.
Proof.
  induction rest as [|c rest IH]; intros done n x Hn Hfree Hl; simpl; [exact I|].
  replace (done ++ c :: rest) with ((done ++ [c]) ++ rest) in Hl
    by (rewrite <- app_assoc; reflexivity).
  rewrite lookup_app in Hl.
  destruct (lookup tree (done ++ [c])) as [y|] eqn:Hy; [|discriminate].
  assert (Hyn : lookup n [c] = Some y) by (rewrite lookup_app, Hn in Hy; exact Hy).
  assert (Hyf : links_free y = true)
    by (apply links_free_lookup with (p := [c]) (n := n); assumption).
  split.
  - exists y; split; [reflexivity|].
    intros t ->; discriminate.
  - apply IH with (n := y) (x := x); [exact Hy | exact Hyf|].
    rewrite lookup_app, Hy; exact Hl.
Qed.

(** Below a node without links a path resolves to itself or not at all. *)
Lemma realpath_from_links_free (create : bool) (tree : node) (rest : path) :
  forall links done n r,
    lookup tree done = Some n -> links_free n = true ->
    realpath_from create links tree done rest = inr r ->
    r = done ++ rest /\ (create = false -> lookup tree r <> None).
Proof.
  induction rest as [|c rest IH]; intros links done n r Hn Hfree H.
  - rewrite realpath_from_nil in H; injection H; intros <-.
    rewrite app_nil_r; split; [reflexivity|].
    intros _; rewrite Hn; discriminate.
  - rewrite realpath_from_cons in H.
    destruct (lookup tree (done ++ [c])) as [y|] eqn:Hy.
    + assert (Hyn : lookup n [c] = Some y) by (rewrite lookup_app, Hn in Hy; exact Hy).
      assert (Hyf : links_free y = true)
        by (apply links_free_lookup with (p := [c]) (n := n); assumption).
      destruct y as [content | es | target]; [| |discriminate].
      * apply IH with (n := File content) in H; [|exact Hy | exact Hyf].
        rewrite <- app_assoc in H; exact H.
      * apply IH with (n := Dir es) in H; [|exact Hy | exact Hyf].
        rewrite <- app_assoc in H; exact H.
    + rewrite Hn in H.
      destruct n as [content | es | target]; try discriminate.
      destruct rest; [|discriminate].
      destruct create; [|discriminate].
      injection H; intros <-; split; [reflexivity | discriminate].
Qed.

Section PlainRepository.

Variable tree : node.
Variable root : path.
Hypothesis repository : plain_repository tree root.

Lemma stat_of_lookup (p : path) (x : node) :
  under root p -> lookup tree p = Some x -> stat tree p = inr x.
Proof.
  destruct repository as (Hplain & repo & Hrepo & Hfree).
  intros [rel ->] Hl; apply stat_plain; [|exact Hl].
  apply plain_from_app; split; [exact Hplain|].
  apply plain_of_lookup with (n := repo) (x := x); assumption.
Qed.

Lemma realpath_below_root (create : bool) (p r : path) :
  under root p ->
  realpath_from create MAXSYMLINKS tree [] p = inr r ->
  r = p /\ (create = false -> lookup tree r <> None).
Proof.
  destruct repository as (Hplain & repo & Hrepo & Hfree).
  intros [rel ->] H.
  rewrite realpath_from_app_plain in H by exact Hplain.
  apply realpath_from_links_free with (n := repo) in H; assumption.
Qed.

Lemma stat_links_free (p : path) (x : node) :
  under root p -> stat tree p = inr x -> lookup tree p = Some x.
Proof.
  intros Hu; unfold stat, realpath.
  destruct (realpath_from false MAXSYMLINKS tree [] p) as [e | r] eqn:Hr; [discriminate|].
  apply realpath_below_root in Hr; [|exact Hu].
  destruct Hr as [-> _].
  destruct (lookup tree p); [intros H; injection H; intros ->; reflexivity | discriminate].
Qed.

Lemma resolve_links_free (p : path) : under root p -> resolve tree p = p.
Proof.
  intros Hu; unfold resolve, realpath.
  destruct (realpath_from false MAXSYMLINKS tree [] p) as [e | r] eqn:Hr; [reflexivity|].
  apply realpath_below_root in Hr; [|exact Hu].
  destruct Hr as [-> _]; reflexivity.
Qed.

End PlainRepository.

(** Two trees that hold the same node at a path of the repository answer
    alike there. *)
Section SameNode.

Variables t1 t2 : node.
Variable root : path.
Hypothesis repository1 : plain_repository t1 root.
Hypothesis repository2 : plain_repository t2 root.

Lemma same_stat (p : path) :
  under root p -> lookup t1 p = lookup t2 p ->
  stat t1 p = stat t2 p
  \/ exists e1 e2, stat t1 p = inl e1 /\ stat t2 p = inl e2.
Proof.
  intros Hu Hl.
  destruct (stat t1 p) as [e1 | x1] eqn:S1.
  - destruct (stat t2 p) as [e2 | x2] eqn:S2; [right; eauto|].
    apply (stat_links_free repository2 Hu) in S2.
    rewrite <- Hl in S2; apply (stat_of_lookup repository1 Hu) in S2.
    congruence.
  - apply (stat_links_free repository1 Hu) in S1.
    rewrite Hl in S1; apply (stat_of_lookup repository2 Hu) in S1.
    left; congruence.
Qed.

Lemma same_is_dir (p : path) :
  under root p -> lookup t1 p = lookup t2 p -> is_dir t1 p = is_dir t2 p.
Proof.
  intros Hu Hl; unfold is_dir.
  destruct (same_stat Hu Hl) as [-> | (e1 & e2 & -> & ->)]; reflexivity.
Qed.

Lemma same_is_file (p : path) :
  under root p -> lookup t1 p = lookup t2 p -> is_file t1 p = is_file t2 p.
Proof.
  intros Hu Hl; unfold is_file.
  destruct (same_stat Hu Hl) as [-> | (e1 & e2 & -> & ->)]; reflexivity.
Qed.

Lemma same_read_text (p : path) :
  under root p -> lookup t1 p = lookup t2 p -> is_file t1 p = true ->
  read_text t1 p = read_text t2 p.
Proof.
  intros Hu Hl Hf; unfold read_text; unfold is_file in Hf.
  destruct (same_stat Hu Hl) as [<- | (e1 & e2 & E1 & _)]; [reflexivity|].
  rewrite E1 in Hf; discriminate.
Qed.

Lemma same_file_matches (ua : char -> bool) (p : path) :
  under root p -> lookup t1 p = lookup t2 p ->
  file_matches ua t1 p = file_matches ua t2 p.
Proof.
  intros Hu Hl; unfold file_matches.
  rewrite <- (same_is_file Hu Hl).
  destruct (is_file t1 p) eqn:Hf; [|reflexivity].
  rewrite <- (same_read_text Hu Hl Hf); reflexivity.
Qed.

End SameNode.

(** Writing below a path leaves the kind of what the path holds. *)
Lemma lookup_put_prefix (a b : path) (new : node) :
  forall n x,
    lookup n a = Some x -> lookup (put (a ++ b) new n) a = Some (put b new x).
Proof.
  induction a as [|c a IH]; intros n x Hl.
  - simpl in Hl; injection Hl; intros <-; reflexivity.
  - simpl in Hl; destruct n as [content | es | target]; try discriminate.
    destruct (find_entry c es) as [v|] eqn:Hf; [|discriminate].
    simpl app; rewrite put_cons_dir; simpl.
    rewrite find_entry_put_same, Hf; apply IH; exact Hl.
Qed.

Lemma put_below_keeps_kind (c : str) (b : path) (new x : node) :
  (forall t, x <> Symlink t) -> forall t, put (c :: b) new x <> Symlink t.
Proof.
  intros Hx t; destruct x as [content | es | target].
  - discriminate.
  - rewrite put_cons_dir; discriminate.
  - exfalso; exact (Hx target eq_refl).
Qed.

Lemma plain_from_put (new : node) (c : str) (rest : path) :
  forall tree done b,
    plain_from tree done rest ->
    plain_from (put ((done ++ rest) ++ c :: b) new tree) done rest.
Proof.
  induction rest as [|d rest IH]; intros tree done b Hp; simpl; [exact I|].
  destruct Hp as [(x & Hx & Hlink) Hp].
  split.
  - exists (put (rest ++ c :: b) new x); split.
    + replace ((done ++ d :: rest) ++ c :: b) with ((done ++ [d]) ++ (rest ++ c :: b))
        by (rewrite <- !app_assoc; reflexivity).
      apply lookup_put_prefix; exact Hx.
    + destruct rest; apply put_below_keeps_kind; exact Hlink.
  - replace ((done ++ d :: rest) ++ c :: b) with (((done ++ [d]) ++ rest) ++ c :: b)
      by (rewrite <- !app_assoc; reflexivity).
    apply IH; exact Hp.
Qed.

Lemma flat_map_ext_in {A B : Type} (f g : A -> list B) (l : list A) :
  (forall a, In a l -> f a = g a) -> flat_map f l = flat_map g l.
Proof.
  induction l as [|a l IH]; intros H; simpl; [reflexivity|].
  rewrite (H a (or_introl eq_refl)), IH; [reflexivity|].
  intros b Hb; apply H; right; exact Hb.
Qed.

Lemma under_snoc_strict (top : path) (c : str) (p : path) :
  under (top ++ [c]) p -> under top p /\ p <> top.
Proof.
  intros [r ->]; split.
  - exists (c :: r); rewrite <- app_assoc; reflexivity.
  - intros E; apply (f_equal (@length str)) in E.
    rewrite !length_app in E; simpl in E; lia.
Qed.

Lemma names_filter_put (P : str -> bool) (o : str) (new : node) (es : list (str * node)) :
  P o = false ->
  filter P (map fst (put_entries o [] new es)) = filter P (map fst es).
Proof.
  intros HP; induction es as [|[k v] es IH]; simpl.
  - rewrite HP; reflexivity.
  - destruct (str_eqb k o); simpl; [reflexivity|].
    rewrite IH; reflexivity.
Qed.

Lemma scan_files_put (top : path) (NP : str -> bool) (Q : path -> bool)
      (o : str) (new : node) (es : list (str * node)) :
  Q (top ++ [o]) = false ->
  filter Q (map (fun f => top ++ [f]) (filter NP (map fst (put_entries o [] new es))))
  = filter Q (map (fun f => top ++ [f]) (filter NP (map fst es))).
Proof.
  intros HQ; induction es as [|[k v] es IH]; simpl.
  - destruct (NP o); simpl; [rewrite HQ|]; reflexivity.
  - destruct (str_eqb k o); simpl; [reflexivity|].
    destruct (NP k); simpl; [destruct (Q (top ++ [k])); [f_equal|]|]; exact IH.
Qed.

Lemma flat_map_put {B : Type} (g : str * node -> list B)
      (o : str) (new : node) (es : list (str * node)) :
  (forall e, fst e = o -> g e = []) ->
  flat_map g (put_entries o [] new es) = flat_map g es.
Proof.
  intros Hg; induction es as [|[k v] es IH]; simpl.
  - rewrite (Hg (o, new) eq_refl); reflexivity.
  - destruct (str_eqb k o) eqn:E; simpl.
    + apply str_eqb_eq in E; subst k.
      rewrite (Hg (o, new) eq_refl), (Hg (o, v) eq_refl); reflexivity.
    + rewrite IH; reflexivity.
Qed.

Lemma enumerate_In {A : Type} (xs : list A) :
  forall start x, In x (enumerate start xs) -> In (snd x) xs.
Proof.
  induction xs as [|y xs IH]; intros start x; simpl; [contradiction|].
  intros [<- | H]; [left; reflexivity | right; exact (IH _ _ H)].
Qed.

Section Rerun.

Variable unicode_alnum : char -> bool.
Variable exn_str : exn -> str.
Variable REPO_ROOT : path.

Lemma walk_node_agree (t1 t2 : node) (n : node) :
  forall top,
    (forall p, under top p -> p <> top ->
               is_dir t1 p = is_dir t2 p
               /\ file_matches unicode_alnum t1 p = file_matches unicode_alnum t2 p) ->
    walk_node t1 (scan_body unicode_alnum REPO_ROOT t1) top n
    = walk_node t2 (scan_body unicode_alnum REPO_ROOT t2) top n.
Proof.
  induction n as [content | es IH | target] using node_tree_ind;
    intros top Hag; try reflexivity.
  assert (Hchild : forall nm, is_dir t1 (top ++ [nm]) = is_dir t2 (top ++ [nm])
                              /\ file_matches unicode_alnum t1 (top ++ [nm])
                                 = file_matches unicode_alnum t2 (top ++ [nm])).
  { intros nm; destruct (@under_snoc_strict top nm (top ++ [nm]) (under_refl _)).
    apply Hag; assumption. }
  simpl.
  rewrite (filter_ext (fun nm => is_dir t1 (top ++ [nm]))
                      (fun nm => is_dir t2 (top ++ [nm])))
    by (intros nm; apply Hchild).
  rewrite (filter_ext (fun nm => negb (is_dir t1 (top ++ [nm])))
                      (fun nm => negb (is_dir t2 (top ++ [nm]))))
    by (intros nm; f_equal; apply Hchild).
  set (dirs := filter (fun nm => is_dir t2 (top ++ [nm])) (map fst es)).
  set (nondirs := filter (fun nm => negb (is_dir t2 (top ++ [nm]))) (map fst es)).
  assert (Hb : scan_body unicode_alnum REPO_ROOT t1 top dirs nondirs
               = scan_body unicode_alnum REPO_ROOT t2 top dirs nondirs).
  { unfold scan_body.
    destruct (is_skipped_dir top); [reflexivity|].
    destruct (in_lighting_crate REPO_ROOT top); [reflexivity|].
    f_equal; apply filter_ext_in; intros p Hp.
    apply in_map_iff in Hp; destruct Hp as (nm & <- & _).
    f_equal; apply Hchild. }
  rewrite Hb; destruct (scan_body unicode_alnum REPO_ROOT t2 top dirs nondirs)
    as [dirs' found].
  f_equal; apply flat_map_ext_in; intros e He.
  destruct (str_in (fst e) dirs'); [|reflexivity].
  rewrite Forall_forall in IH; specialize (IH e He).
  destruct (snd e) as [content | es1 | target]; try reflexivity.
  apply IH; intros p Hp Hne.
  destruct (@under_snoc_strict top (fst e) p Hp) as [Hu Hn]; apply Hag; assumption.
Qed.

Lemma file_matches_needs_extension (t : node) (p : path) :
  in_CODE_EXTS (suffix p) = false -> file_matches unicode_alnum t p = false.
Proof.
  intros H; unfold file_matches; rewrite H.
  destruct (is_file t p); reflexivity.
Qed.

Lemma output_not_eligible : in_CODE_EXTS (suffix (OUTPUT_PATH REPO_ROOT)) = false.
Proof. unfold OUTPUT_PATH; rewrite suffix_snoc; vm_compute; reflexivity. Qed.

Section AfterWrite.

Variable tree : node.
Variable entries : list (str * node).
Variable data : str.

Hypothesis root_plain : plain_from tree [] REPO_ROOT.
Hypothesis root_dir : lookup tree REPO_ROOT = Some (Dir entries).
Hypothesis repo_free : links_free (Dir entries) = true.
Hypothesis output_free :
  forall es, find_entry (lit "LightingBundle.md") entries <> Some (Dir es).

Let q := OUTPUT_PATH REPO_ROOT.
Let tree' := put q (File (inl data)) tree.

Lemma tree_plain : plain_repository tree REPO_ROOT.
Proof. split; [exact root_plain | exists (Dir entries); auto]. Qed.

Lemma output_under_root : under REPO_ROOT q.
Proof. apply under_snoc. Qed.

Lemma output_node : lookup tree q = find_entry (lit "LightingBundle.md") entries.
Proof.
  unfold q, OUTPUT_PATH; rewrite lookup_app, root_dir; simpl.
  destruct (find_entry (lit "LightingBundle.md") entries); reflexivity.
Qed.

Lemma output_kind : lookup tree q = None \/ exists c, lookup tree q = Some (File c).
Proof.
  destruct (lookup tree q) as [[c | es | t]|] eqn:Hq; eauto.
  - rewrite output_node in Hq; exfalso; exact (output_free Hq).
  - rewrite output_node in Hq; apply find_entry_In in Hq.
    pose proof repo_free as Hfree; simpl in Hfree; rewrite forallb_forall in Hfree.
    specialize (Hfree _ Hq); discriminate.
Qed.

Lemma root_dir' :
  lookup tree' REPO_ROOT
  = Some (Dir (put_entries (lit "LightingBundle.md") [] (File (inl data)) entries)).
Proof. apply lookup_put_parent; exact root_dir. Qed.

Lemma root_plain' : plain_from tree' [] REPO_ROOT.
Proof.
  unfold tree', q, OUTPUT_PATH.
  exact (@plain_from_put (File (inl data)) (lit "LightingBundle.md") REPO_ROOT
           tree [] [] root_plain).
Qed.

Lemma repo_free' :
  links_free (Dir (put_entries (lit "LightingBundle.md") [] (File (inl data)) entries))
  = true.
Proof.
  rewrite <- put_cons_dir; apply links_free_put; [reflexivity | exact repo_free].
Qed.

Lemma tree'_plain : plain_repository tree' REPO_ROOT.
Proof.
  split; [exact root_plain'|].
  eexists; split; [exact root_dir' | exact repo_free'].
Qed.

Lemma output_node' : lookup tree' q = Some (File (inl data)).
Proof. apply lookup_put_at with (es := entries); exact root_dir. Qed.

Lemma write_text_ok : write_text tree q data = inr tree'.
Proof.
  unfold write_text.
  assert (Hr : realpath_from true MAXSYMLINKS tree [] q = inr q).
  { unfold q, OUTPUT_PATH.
    rewrite realpath_from_app_plain by exact root_plain.
    rewrite realpath_from_cons; simpl app.
    fold (OUTPUT_PATH REPO_ROOT); fold q.
    destruct output_kind as [Hq | [c Hq]]; rewrite Hq.
    - rewrite root_dir; reflexivity.
    - apply realpath_from_nil. }
  rewrite Hr.
  destruct output_kind as [Hq | [c Hq]]; rewrite Hq; reflexivity.
Qed.

Lemma lookup_agree (p : path) :
  (forall r, q <> p ++ r) -> lookup tree' p = lookup tree p.
Proof.
  intros Hqp.
  destruct (relative_to p q) as [r|] eqn:Hrel.
  - apply relative_to_Some in Hrel; subst p.
    destruct r as [|c r]; [exfalso; apply (Hqp []); rewrite !app_nil_r; reflexivity|].
    rewrite !lookup_app, output_node'.
    destruct output_kind as [Hq | [c0 Hq]]; rewrite Hq; reflexivity.
  - apply lookup_put_off; [|exact Hqp].
    intros r ->; rewrite relative_to_app in Hrel; discriminate.
Qed.

Lemma below_root_not_above_output (p : path) :
  under REPO_ROOT p -> p <> REPO_ROOT -> p <> q -> forall r, q <> p ++ r.
Proof.
  intros [rel ->] Hroot Hq r E.
  unfold q, OUTPUT_PATH in *.
  rewrite <- app_assoc in E; apply app_inv_head in E.
  destruct rel as [|c rel]; [apply Hroot; rewrite app_nil_r; reflexivity|].
  simpl in E; injection E; intros E2 <-.
  destruct rel; [|discriminate].
  apply Hq; reflexivity.
Qed.

Lemma output_never_dir : is_dir tree q = false /\ is_dir tree' q = false.
Proof.
  split; unfold is_dir.
  - destruct (stat tree q) as [e | x] eqn:S; [reflexivity|].
    apply (stat_links_free tree_plain output_under_root) in S.
    destruct output_kind as [Hq | [c Hq]]; rewrite Hq in S; [discriminate|].
    injection S; intros <-; reflexivity.
  - rewrite (stat_of_lookup tree'_plain output_under_root output_node').
    reflexivity.
Qed.

Lemma agree_below_root (p : path) :
  under REPO_ROOT p -> p <> REPO_ROOT ->
  is_dir tree' p = is_dir tree p
  /\ file_matches unicode_alnum tree' p = file_matches unicode_alnum tree p.
Proof.
  intros Hu Hroot.
  destruct (list_eq_dec (list_eq_dec N.eq_dec) p q) as [-> | Hq].
  - destruct output_never_dir as [-> ->]; split; [reflexivity|].
    unfold q; rewrite !file_matches_needs_extension by apply output_not_eligible.
    reflexivity.
  - pose proof (@lookup_agree p (@below_root_not_above_output p Hu Hroot Hq)) as Hl.
    split;
      [ apply same_is_dir with (root := REPO_ROOT)
      | apply same_file_matches with (root := REPO_ROOT) ];
      auto using tree'_plain, tree_plain.
Qed.

Lemma primary_not_above_output (p : path) :
  under (lighting_crate REPO_ROOT) p -> forall r, q <> p ++ r.
Proof.
  intros [rel ->] r E; unfold q, OUTPUT_PATH, lighting_crate in E.
  rewrite <- !app_assoc in E; apply app_inv_head in E; simpl in E.
  injection E; intros E2 _; discriminate.
Qed.

Lemma scan_body_dirs (t : node) (d : path) (dirs filenames : list str) (nm : str) :
  str_in nm dirs = false ->
  str_in nm (fst (scan_body unicode_alnum REPO_ROOT t d dirs filenames)) = false.
Proof.
  intros H; unfold scan_body.
  destruct (is_skipped_dir d); [reflexivity|].
  destruct (in_lighting_crate REPO_ROOT d); exact H.
Qed.

Lemma phase2_same :
  phase2 unicode_alnum REPO_ROOT tree' = phase2 unicode_alnum REPO_ROOT tree.
Proof.
  unfold phase2, os_walk.
  rewrite (stat_of_lookup tree'_plain (under_refl REPO_ROOT) root_dir').
  rewrite (stat_of_lookup tree_plain (under_refl REPO_ROOT) root_dir).
  destruct output_never_dir as [Hout _].
  unfold q, OUTPUT_PATH in Hout.
  set (o := lit "LightingBundle.md") in *.
  set (es' := put_entries o [] (File (inl data)) entries).
  simpl.
  rewrite (filter_ext (fun nm => is_dir tree' (REPO_ROOT ++ [nm]))
                      (fun nm => is_dir tree (REPO_ROOT ++ [nm])))
    by (intros nm; destruct (@under_snoc_strict REPO_ROOT nm (REPO_ROOT ++ [nm])
                               (under_refl _));
        apply agree_below_root; assumption).
  rewrite (filter_ext (fun nm => negb (is_dir tree' (REPO_ROOT ++ [nm])))
                      (fun nm => negb (is_dir tree (REPO_ROOT ++ [nm]))))
    by (intros nm; f_equal;
        destruct (@under_snoc_strict REPO_ROOT nm (REPO_ROOT ++ [nm]) (under_refl _));
        apply agree_below_root; assumption).
  unfold es' at 1; rewrite names_filter_put by exact Hout.
  set (dirs := filter (fun nm => is_dir tree (REPO_ROOT ++ [nm])) (map fst entries)).
  set (ND := fun nm => negb (is_dir tree (REPO_ROOT ++ [nm]))).
  assert (Hb : scan_body unicode_alnum REPO_ROOT tree' REPO_ROOT dirs
                 (filter ND (map fst es'))
               = scan_body unicode_alnum REPO_ROOT tree REPO_ROOT dirs
                   (filter ND (map fst entries))).
  { unfold scan_body.
    destruct (is_skipped_dir REPO_ROOT); [reflexivity|].
    destruct (in_lighting_crate REPO_ROOT REPO_ROOT); [reflexivity|].
    f_equal.
    rewrite (filter_ext_in
               (fun p => in_CODE_EXTS (suffix p) && file_matches unicode_alnum tree' p)
               (fun p => in_CODE_EXTS (suffix p) && file_matches unicode_alnum tree p)).
    - unfold es'; apply scan_files_put.
      cbv beta; subst o.
      change (REPO_ROOT ++ [lit "LightingBundle.md"]) with (OUTPUT_PATH REPO_ROOT).
      rewrite output_not_eligible; reflexivity.
    - intros p Hp; apply in_map_iff in Hp; destruct Hp as (nm & <- & _).
      f_equal.
      destruct (@under_snoc_strict REPO_ROOT nm (REPO_ROOT ++ [nm]) (under_refl _)).
      apply agree_below_root; assumption. }
  rewrite Hb.
  pose proof (@scan_body_dirs tree REPO_ROOT dirs (filter ND (map fst entries)) o) as Ho.
  destruct (scan_body unicode_alnum REPO_ROOT tree REPO_ROOT dirs
              (filter ND (map fst entries))) as [dirs' found].
  simpl in Ho.
  assert (Hodirs : str_in o dirs' = false).
  { apply Ho; destruct (str_in o dirs) eqn:E; [|reflexivity].
    apply str_in_In, filter_In in E; destruct E as [_ E]; congruence. }
  f_equal.
  transitivity
    (flat_map
       (fun e : str * node =>
          if str_in (fst e) dirs'
          then match snd e with
               | Dir _ =>
                   walk_node tree (scan_body unicode_alnum REPO_ROOT tree)
                             (REPO_ROOT ++ [fst e]) (snd e)
               | _ => []
               end
          else []) es').
  - apply flat_map_ext_in; intros e _.
    destruct (str_in (fst e) dirs'); [|reflexivity].
    destruct (snd e) as [c | es1 | t]; try reflexivity.
    apply walk_node_agree; intros p Hp Hne.
    destruct (@under_snoc_strict REPO_ROOT (fst e) p Hp) as [Hu Hn].
    apply agree_below_root; assumption.
  - unfold es'; apply flat_map_put.
    intros e <-; rewrite Hodirs; reflexivity.
Qed.

Lemma phase1_same : phase1 REPO_ROOT tree' = phase1 REPO_ROOT tree.
Proof.
  unfold phase1, exists_, rglob.
  pose proof (@lookup_agree (lighting_crate REPO_ROOT)
                (@primary_not_above_output _ (under_refl _))) as Hl.
  assert (Hcrate : under REPO_ROOT (lighting_crate REPO_ROOT))
    by (eexists; reflexivity).
  destruct (same_stat tree'_plain tree_plain Hcrate Hl)
    as [-> | (e1 & e2 & -> & ->)]; [|reflexivity].
  destruct (stat tree (lighting_crate REPO_ROOT)) as [e | n]; [reflexivity|].
  apply filter_ext_in; intros p Hp; f_equal.
  apply rglob_node_under in Hp.
  apply same_is_file with (root := REPO_ROOT);
    auto using tree'_plain, tree_plain.
  - exact (under_trans Hcrate Hp).
  - apply lookup_agree, primary_not_above_output; exact Hp.
Qed.

Lemma dedup_resolve_ext (t1 t2 : node) (files : list path) :
  (forall p, In p files -> resolve t1 p = resolve t2 p) ->
  forall seen, dedup t1 seen files = dedup t2 seen files.
Proof.
  induction files as [|p files IH]; intros Hres seen; simpl; [reflexivity|].
  rewrite (Hres p (or_introl eq_refl)).
  assert (Hrest : forall x, In x files -> resolve t1 x = resolve t2 x)
    by (intros x Hx; apply Hres; right; exact Hx).
  destruct (existsb _ seen); [apply IH | f_equal; apply IH]; exact Hrest.
Qed.

Lemma discover_same :
  discover_files unicode_alnum REPO_ROOT tree'
  = discover_files unicode_alnum REPO_ROOT tree.
Proof.
  unfold discover_files; rewrite phase1_same, phase2_same.
  apply dedup_resolve_ext; intros p Hp.
  apply (@found_under_root unicode_alnum REPO_ROOT tree) in Hp.
  rewrite (resolve_links_free tree'_plain Hp), (resolve_links_free tree_plain Hp).
  reflexivity.
Qed.

Lemma read_same (p : path) :
  In p (discover_files unicode_alnum REPO_ROOT tree) ->
  read_text tree' p = read_text tree p.
Proof.
  intros Hin.
  destruct (@returned_eligible unicode_alnum REPO_ROOT tree p Hin) as [Hf He].
  assert (Hu : under REPO_ROOT p)
    by (apply (@found_under_root unicode_alnum REPO_ROOT tree), discover_files_In; exact Hin).
  assert (Hroot : p <> REPO_ROOT).
  { intros ->; unfold is_file in Hf.
    rewrite (stat_of_lookup tree_plain (under_refl REPO_ROOT) root_dir) in Hf.
    discriminate. }
  assert (Hq : p <> q).
  { intros ->; unfold q in He; rewrite output_not_eligible in He; discriminate. }
  symmetry; apply same_read_text with (root := REPO_ROOT);
    auto using tree'_plain, tree_plain.
  symmetry; apply lookup_agree, below_root_not_above_output; assumption.
Qed.

Lemma bundle_same (ts : str) (rel_paths : list path) :
  bundle_lines exn_str REPO_ROOT tree' ts rel_paths
    (discover_files unicode_alnum REPO_ROOT tree)
  = bundle_lines exn_str REPO_ROOT tree ts rel_paths
      (discover_files unicode_alnum REPO_ROOT tree).
Proof.
  unfold bundle_lines; do 4 f_equal.
  apply flat_map_ext_in; intros [i [rp p]] Hx.
  apply enumerate_In in Hx; cbn [snd fst] in *; apply in_combine_r in Hx.
  unfold file_section, code_block; rewrite (read_same _ Hx); reflexivity.
Qed.

Lemma output_holds_data : read_text tree' q = inl data.
Proof.
  unfold read_text.
  rewrite (stat_of_lookup tree'_plain output_under_root output_node').
  reflexivity.
Qed.

Lemma output_still_free :
  forall es,
    find_entry (lit "LightingBundle.md")
               (put_entries (lit "LightingBundle.md") [] (File (inl data)) entries)
    <> Some (Dir es).
Proof.
  intros es; rewrite find_entry_put_same.
  destruct (find_entry (lit "LightingBundle.md") entries); discriminate.
Qed.

End AfterWrite.

(** One run of [main] on a tree that meets the conditions above. *)
Lemma main_writes_bundle (tree : node) (entries : list (str * node))
      (argv : list str) (t : datetime) (tr : list event) :
  plain_from tree [] REPO_ROOT ->
  lookup tree REPO_ROOT = Some (Dir entries) ->
  links_free (Dir entries) = true ->
  (forall es, find_entry (lit "LightingBundle.md") entries <> Some (Dir es)) ->
  discover_files unicode_alnum REPO_ROOT tree <> [] ->
  let files := discover_files unicode_alnum REPO_ROOT tree in
  let doc :=
    join newline
      (bundle_lines exn_str REPO_ROOT tree (isoformat t)
         (map (skipn (length REPO_ROOT)) files) files) in
  exists st,
    main unicode_alnum exn_str REPO_ROOT argv {| fs := tree; clock := t; trace := tr |}
    = (Ok 0%Z, st)
    /\ fs st = put (OUTPUT_PATH REPO_ROOT) (File (inl doc)) tree.
Proof.
  intros Hplain Hroot Hfree Hout Hne; cbv zeta.
  rewrite main_eval; cbn [fs].
  pose proof (@discovered_below_root unicode_alnum REPO_ROOT tree) as HF; cbv zeta in HF.
  destruct (discover_files unicode_alnum REPO_ROOT tree) as [|p rest];
    [contradiction|].
  rewrite (@write_bundle_ok exn_str REPO_ROOT _ _
             {| fs := tree; clock := t; trace := tr |} HF).
  unfold do_write_text; cbn [fs clock].
  rewrite (@write_text_ok tree entries _ Hplain Hroot Hfree Hout).
  eexists; split; reflexivity.
Qed.

(** Two runs in a row, when no call is refused. *)
Lemma two_runs (tree : node) (entries : list (str * node))
      (argv1 argv2 : list str) (t1 t2 : datetime) (tr : list event) :
  plain_from tree [] REPO_ROOT ->
  lookup tree REPO_ROOT = Some (Dir entries) ->
  links_free (Dir entries) = true ->
  (forall es, find_entry (lit "LightingBundle.md") entries <> Some (Dir es)) ->
  discover_files unicode_alnum REPO_ROOT tree <> [] ->
  exists post st1 st2,
    main unicode_alnum exn_str REPO_ROOT argv1
         {| fs := tree; clock := t1; trace := tr |} = (Ok 0%Z, st1)
    /\ main unicode_alnum exn_str REPO_ROOT argv2
           {| fs := fs st1; clock := t2; trace := trace st1 |} = (Ok 0%Z, st2)
    /\ discover_files unicode_alnum REPO_ROOT (fs st1)
       = discover_files unicode_alnum REPO_ROOT tree
    /\ read_text (fs st1) (OUTPUT_PATH REPO_ROOT)
       = inl (lit "# Lighting Code Bundle" ++ newline ++ newline
              ++ lit "Generated: " ++ isoformat t1 ++ newline ++ post)
    /\ read_text (fs st2) (OUTPUT_PATH REPO_ROOT)
       = inl (lit "# Lighting Code Bundle" ++ newline ++ newline
              ++ lit "Generated: " ++ isoformat t2 ++ newline ++ post).
Proof.
  intros Hplain Hroot Hfree Hout Hne.
  set (files := discover_files unicode_alnum REPO_ROOT tree) in *.
  destruct (@bundle_doc_split exn_str REPO_ROOT tree
              (map (skipn (length REPO_ROOT)) files) files) as [post Hpost].
  destruct (@main_writes_bundle tree entries argv1 t1 tr Hplain Hroot Hfree Hout Hne)
    as (st1 & Hm1 & Hfs1).
  fold files in Hfs1; rewrite Hpost in Hfs1.
  set (doc1 := lit "# Lighting Code Bundle" ++ newline ++ newline
               ++ lit "Generated: " ++ isoformat t1 ++ newline ++ post) in *.
  assert (Hdisc : discover_files unicode_alnum REPO_ROOT (fs st1) = files)
    by (rewrite Hfs1; apply discover_same with (entries := entries); assumption).
  assert (Hne1 : discover_files unicode_alnum REPO_ROOT (fs st1) <> [])
    by (rewrite Hdisc; exact Hne).
  assert (Hplain1 : plain_from (fs st1) [] REPO_ROOT)
    by (rewrite Hfs1; apply root_plain'; exact Hplain).
  assert (Hroot1 : lookup (fs st1) REPO_ROOT
                   = Some (Dir (put_entries (lit "LightingBundle.md") []
                                  (File (inl doc1)) entries)))
    by (rewrite Hfs1; apply root_dir'; exact Hroot).
  assert (Hfree1 : links_free (Dir (put_entries (lit "LightingBundle.md") []
                                      (File (inl doc1)) entries)) = true)
    by (apply repo_free'; exact Hfree).
  destruct (@main_writes_bundle (fs st1) _ argv2 t2 (trace st1) Hplain1 Hroot1 Hfree1
              (@output_still_free entries doc1 Hout) Hne1)
    as (st2 & Hm2 & Hfs2).
  exists post, st1, st2.
  split; [exact Hm1|]; split; [exact Hm2|]; split; [exact Hdisc|]; split.
  - rewrite Hfs1; apply output_holds_data with (entries := entries); assumption.
  - rewrite Hfs2, Hdisc; subst files.
    rewrite Hfs1 at 1.
    rewrite (@bundle_same tree entries doc1 Hplain Hroot Hfree Hout), Hpost.
    apply output_holds_data with (entries := put_entries (lit "LightingBundle.md") []
                                               (File (inl doc1)) entries);
      assumption.
Qed.

End Rerun.

(** ** Runs in which no call is refused *)

(** From the tree alone [os.stat] fails with errors that [pathlib] ignores. *)
Lemma realpath_from_errno (create : bool) (tree : node) :
  forall links rest done e,
    realpath_from create links tree done rest = inl e ->
    Raising.ignored_errno e = true.
Proof.
  induction links as [|links IHl]; induction rest as [|c rest IH]; intros done e;
    try (rewrite realpath_from_nil; discriminate);
    rewrite realpath_from_cons;
    (destruct (lookup tree (done ++ [c])) as [[content | es | target]|];
     [ apply IH | apply IH | | ]).
  - intros H; injection H; intros <-; reflexivity.
  - destruct (lookup tree done) as [[c0 | es0 | t0]|], rest, create;
      intros H; try discriminate; injection H; intros <-; reflexivity.
  - apply IHl.
  - destruct (lookup tree done) as [[c0 | es0 | t0]|], rest, create;
      intros H; try discriminate; injection H; intros <-; reflexivity.
Qed.

Lemma stat_errno (tree : node) (p : path) (e : errno) :
  stat tree p = inl e -> Raising.ignored_errno e = true.
Proof.
  unfold stat, realpath.
  destruct (realpath_from false MAXSYMLINKS tree [] p) as [e0 | q] eqn:Hr.
  - intros H; injection H; intros <-; exact (realpath_from_errno _ _ _ _ _ Hr).
  - destruct (lookup tree q); [discriminate|].
    intros H; injection H; intros <-; reflexivity.
Qed.

Lemma filter_r_granted {A : Type} (f : A -> result bool) (g : A -> bool) (l : list A) :
  (forall x, In x l -> f x = Ok (g x)) -> Raising.filter_r f l = Ok (filter g l).
Proof.
  induction l as [|x l IH]; intros H; simpl; [reflexivity|].
  rewrite (H x (or_introl eq_refl)), IH by (intros y Hy; apply H; right; exact Hy).
  destruct (g x); reflexivity.
Qed.

Lemma walk_node_granted {A : Type} (tree : node)
      (body_r : path -> list str -> list str -> result (list str * list A))
      (body : path -> list str -> list str -> list str * list A) (n : node) :
  forall top,
    (forall d dirs nondirs, under top d -> body_r d dirs nondirs = Ok (body d dirs nondirs)) ->
    Raising.walk_node tree body_r top n = Ok (walk_node tree body top n).
Proof.
  induction n as [content | es IH | target] using node_tree_ind;
    intros top Hbody; try reflexivity.
  simpl; rewrite (Hbody top _ _ (under_refl top)).
  destruct (body top _ _) as [dirs' out].
  match goal with
  | |- match ?g es with _ => _ end = _ => set (go := g)
  end.
  assert (Hgo : go es
                = Ok (flat_map
                        (fun e =>
                           if str_in (fst e) dirs'
                           then match snd e with
                                | Dir _ => walk_node tree body (top ++ [fst e]) (snd e)
                                | _ => []
                                end
                           else []) es)).
  { induction IH as [|e es He _ IHes]; [reflexivity|].
    simpl; rewrite IHes.
    destruct (str_in (fst e) dirs'); [|reflexivity].
    destruct (snd e) as [c | es' | t] eqn:Hsnd; try reflexivity.
    rewrite He; [reflexivity|].
    intros d dirs nondirs Hd; apply Hbody.
    apply under_trans with (top ++ [fst e]); [apply under_snoc | exact Hd]. }
  rewrite Hgo; reflexivity.
Qed.

Section NothingRefused.

Variable stat_refused : path -> option errno.
Variable write_refused : path -> option errno.
Variable unicode_alnum : char -> bool.
Variable exn_str : exn -> str.
Variable REPO_ROOT : path.

Hypothesis stat_granted : forall p, under REPO_ROOT p -> stat_refused p = None.
Hypothesis write_granted : write_refused (OUTPUT_PATH REPO_ROOT) = None.

Lemma is_file_granted (tree : node) (p : path) :
  under REPO_ROOT p -> Raising.is_file stat_refused tree p = Ok (is_file tree p).
Proof.
  intros Hu; unfold Raising.is_file, Raising.os_stat, is_file.
  rewrite (stat_granted Hu).
  destruct (stat tree p) as [e | [c | es | t]] eqn:Hs; try reflexivity.
  rewrite (stat_errno _ _ Hs); reflexivity.
Qed.

Lemma exists_granted (tree : node) (p : path) :
  under REPO_ROOT p -> Raising.exists_ stat_refused tree p = Ok (exists_ tree p).
Proof.
  intros Hu; unfold Raising.exists_, Raising.os_stat, exists_.
  rewrite (stat_granted Hu).
  destruct (stat tree p) as [e | n] eqn:Hs; try reflexivity.
  rewrite (stat_errno _ _ Hs); reflexivity.
Qed.

Lemma file_matches_granted (tree : node) (p : path) :
  under REPO_ROOT p ->
  Raising.file_matches stat_refused unicode_alnum tree p
  = Ok (file_matches unicode_alnum tree p).
Proof.
  intros Hu; unfold Raising.file_matches, file_matches.
  rewrite (is_file_granted tree Hu).
  destruct (is_file tree p); [|reflexivity]; cbn [negb].
  destruct (negb (in_CODE_EXTS (suffix p))); [reflexivity|].
  destruct (read_text tree p); reflexivity.
Qed.

Lemma phase1_granted (tree : node) :
  Raising.phase1 stat_refused REPO_ROOT tree = Ok (phase1 REPO_ROOT tree).
Proof.
  assert (Hcrate : under REPO_ROOT (lighting_crate REPO_ROOT))
    by (eexists; reflexivity).
  unfold Raising.phase1, phase1; rewrite (exists_granted tree Hcrate).
  destruct (exists_ tree (lighting_crate REPO_ROOT)); [|reflexivity].
  apply filter_r_granted; intros p Hp.
  rewrite is_file_granted; [reflexivity|].
  exact (under_trans Hcrate (rglob_under _ _ _ Hp)).
Qed.

Lemma scan_body_granted (tree : node) (d : path) (dirs filenames : list str) :
  under REPO_ROOT d ->
  Raising.scan_body stat_refused unicode_alnum REPO_ROOT tree d dirs filenames
  = Ok (scan_body unicode_alnum REPO_ROOT tree d dirs filenames).
Proof.
  intros Hd; unfold Raising.scan_body, scan_body.
  destruct (is_skipped_dir d); [reflexivity|].
  destruct (in_lighting_crate REPO_ROOT d); [reflexivity|].
  rewrite filter_r_granted
    with (g := fun p => in_CODE_EXTS (suffix p) && file_matches unicode_alnum tree p);
    [reflexivity|].
  intros p Hp; apply in_map_iff in Hp; destruct Hp as (fname & <- & _).
  destruct (in_CODE_EXTS (suffix (d ++ [fname]))); [|reflexivity].
  apply file_matches_granted.
  exact (under_trans Hd (under_snoc d fname)).
Qed.

Lemma discover_files_granted (tree : node) :
  Raising.discover_files stat_refused unicode_alnum REPO_ROOT tree
  = Ok (discover_files unicode_alnum REPO_ROOT tree).
Proof.
  unfold Raising.discover_files, discover_files; rewrite phase1_granted.
  assert (H2 : Raising.phase2 stat_refused unicode_alnum REPO_ROOT tree
               = Ok (phase2 unicode_alnum REPO_ROOT tree)).
  { unfold Raising.phase2, phase2, Raising.os_walk, os_walk.
    destruct (stat tree REPO_ROOT) as [e | n]; [reflexivity|].
    apply walk_node_granted; intros d dirs nondirs Hd.
    apply scan_body_granted; exact Hd. }
  rewrite H2; reflexivity.
Qed.

Lemma main_granted (argv : list str) (st : state) :
  Raising.main stat_refused write_refused unicode_alnum exn_str REPO_ROOT argv st
  = main unicode_alnum exn_str REPO_ROOT argv st.
Proof.
  unfold Raising.main, main, bind, gets.
  rewrite discover_files_granted.
  destruct (discover_files unicode_alnum REPO_ROOT (fs st)) as [|p rest];
    [reflexivity|].
  assert (Hw : Raising.write_bundle write_refused exn_str REPO_ROOT (p :: rest) st
               = write_bundle exn_str REPO_ROOT (p :: rest) st).
  { unfold Raising.write_bundle, write_bundle, bind.
    destruct (mapM (relative_to_root REPO_ROOT) (p :: rest) st) as [[rps | e] st0];
      [|reflexivity].
    unfold now, gets, Raising.do_write_text, do_write_text, Raising.write_text.
    rewrite write_granted; reflexivity. }
  rewrite Hw; reflexivity.
Qed.

Variable tree : node.
Variable entries : list (str * node).

(** X12: when no [os.stat] call below the repository root and not the
    write of the output file is refused, no symbolic link lies on the way
    to the root or in the tree below it, [LightingBundle.md] is absent or
    a regular file, and discovery finds something, a run of [main] returns
    0 and a second run on the file system it leaves returns 0 too; the
    second run discovers the same files, and the documents the output
    file holds after the two runs are equal except for the timestamp on
    the line that starts with [Generated:]. *)
Theorem second_run_changes_only_timestamp
        (files : list path) (argv1 argv2 : list str) (t1 t2 : datetime)
        (tr : list event) :
  plain_from tree [] REPO_ROOT ->
  lookup tree REPO_ROOT = Some (Dir entries) ->
  links_free (Dir entries) = true ->
  (forall es, find_entry (lit "LightingBundle.md") entries <> Some (Dir es)) ->
  Raising.discover_files stat_refused unicode_alnum REPO_ROOT tree = Ok files ->
  files <> [] ->
  exists post st1 st2,
    Raising.main stat_refused write_refused unicode_alnum exn_str REPO_ROOT argv1
      {| fs := tree; clock := t1; trace := tr |} = (Ok 0%Z, st1)
    /\ Raising.main stat_refused write_refused unicode_alnum exn_str REPO_ROOT argv2
         {| fs := fs st1; clock := t2; trace := trace st1 |} = (Ok 0%Z, st2)
    /\ Raising.discover_files stat_refused unicode_alnum REPO_ROOT (fs st1) = Ok files
    /\ read_text (fs st1) (OUTPUT_PATH REPO_ROOT)
       = inl (lit "# Lighting Code Bundle" ++ newline ++ newline
              ++ lit "Generated: " ++ isoformat t1 ++ newline ++ post)
    /\ read_text (fs st2) (OUTPUT_PATH REPO_ROOT)
       = inl (lit "# Lighting Code Bundle" ++ newline ++ newline
              ++ lit "Generated: " ++ isoformat t2 ++ newline ++ post).
Proof.
  intros Hplain Hroot Hfree Hout Hfiles Hne.
  rewrite discover_files_granted in Hfiles; injection Hfiles; intros <-.
  assert (Hne' : discover_files unicode_alnum REPO_ROOT tree <> []) by exact Hne.
  destruct (@two_runs unicode_alnum exn_str REPO_ROOT tree entries argv1 argv2 t1 t2 tr
              Hplain Hroot Hfree Hout Hne')
    as (post & st1 & st2 & H1 & H2 & Hd & Hr1 & Hr2).
  exists post, st1, st2.
  rewrite !main_granted, !discover_files_granted, Hd; auto.
Qed.

End NothingRefused.

Lemma second_run_changes_only_timestamp_witness :
  exists post st1 st2,
    Raising.main nothing_refused nothing_refused ascii_only plain_exn_str example_root []
      {| fs := example_system; clock := example_clock; trace := [] |} = (Ok 0%Z, st1)
    /\ Raising.main nothing_refused nothing_refused ascii_only plain_exn_str example_root []
         {| fs := fs st1; clock := later_clock; trace := trace st1 |} = (Ok 0%Z, st2)
    /\ Raising.discover_files nothing_refused ascii_only example_root (fs st1)
       = Ok [ example_crate ++ [lit "Cargo.toml"];
              example_crate ++ [lit "src"; lit "lib.rs"];
              example_skipped_file;
              example_mesh ]
    /\ read_text (fs st1) (OUTPUT_PATH example_root)
       = inl (lit "# Lighting Code Bundle" ++ newline ++ newline
              ++ lit "Generated: " ++ isoformat example_clock ++ newline ++ post)
    /\ read_text (fs st2) (OUTPUT_PATH example_root)
       = inl (lit "# Lighting Code Bundle" ++ newline ++ newline
              ++ lit "Generated: " ++ isoformat later_clock ++ newline ++ post).
Proof.
  eapply (@second_run_changes_only_timestamp nothing_refused nothing_refused
            ascii_only plain_exn_str example_root
            (fun _ _ => eq_refl) eq_refl example_system _ _ [] [] example_clock
            later_clock []).
  - cbn [plain_from app example_root];
      repeat (split; [eexists; split; [vm_compute; reflexivity | discriminate]|]);
      exact I.
  - vm_compute; reflexivity.
  - vm_compute; reflexivity.
  - intros es; vm_compute; discriminate.
  - vm_compute; reflexivity.
  - discriminate.
Defined.

(** ** Runs that return *)



Section Returns.

Variable stat_refused : path -> option errno.
Variable write_refused : path -> option errno.
Variable unicode_alnum : char -> bool.
Variable exn_str : exn -> str.
Variable REPO_ROOT : path.

(** The refusals are errors that [pathlib] raises again. *)
Hypothesis refusals_raise :
  forall p e, stat_refused p = Some e -> Raising.ignored_errno e = false.









End Returns.


